(** * libp2pclient: the per-peer sender registry of [internal/libp2pclient/client.go]

    A shallow embedding of the Go [Client] and of its operations
    [NewClient], [peerSender], [messageSenderForPeer], [SendRequest] and
    [SendMessage]; of goroutines that share one client; and of the methods
    of [peerMessageSender], which client.go calls and does not define,
    after their description in the specification, also with the locks of
    the senders followed through the transitions of the goroutines.  The
    properties of construction, of the registry, of the replace-or-evict
    protocol, of negotiation, of the read timeout, of decode failures and of
    the serialization by the locks follow.

    Conventions.
    - A [*peerMessageSender] is an address into a heap of sender objects;
      [&peerMessageSender{...}] allocates the next free address, and pointer
      comparison [ms != msCur] is comparison of addresses.
    - [c.peerSenders] is a finite map from peer identities to addresses.
    - A critical section of [c.sendersLock] is one atomic transition; what
      runs outside of it (the sender's methods) may be interleaved with the
      transitions of other goroutines. *)

From Stdlib Require Import ZArith.
From Stdlib.Strings Require Import Byte.
From stdpp Require Import gmap strings list fin_maps.


(** ** Identifiers, errors and the external collaborators *)

(** [peer.ID] and [protocol.ID] are Go string types. *)
Abbreviation PeerID := string (only parsing).
Abbreviation ProtocolID := string (only parsing).

(** The address of a [peerMessageSender]. *)
Abbreviation ptr := nat (only parsing).

(** Go [error] values.  [ErrReadTimeout] is the package variable of
    client.go; [ErrCanceled] stands for the error of a done context, and
    [ErrMsg] carries the text of any other error. *)
Inductive error : Type :=
  | ErrReadTimeout
  | ErrCanceled
  | ErrMsg (msg : string).

#[global] Instance error_eq_dec : EqDecision error.
Proof. solve_decision. Defined.

(** [time.Duration] counts nanoseconds. *)
Definition Second : Z := 1000000000.

(** [var readMessageTimeout = 10 * time.Second] *)
Definition readMessageTimeout : Z := 10 * Second.

(** A [context.Context], reduced to the instant (in nanoseconds of the
    logical clock) at which it is done, if ever. *)
Record Context : Type := { doneAt : option Z }.

(** [proto.Message]: an opaque unit, represented by its encoding. *)
Abbreviation Message := (list byte) (only parsing).

(** [type DecodeResponseFunc func([]byte) error] *)
Definition DecodeResponseFunc : Type := list byte -> option error.

(** An open stream: its identity, the peer at the other end and the protocol
    that was negotiated for it. *)
Record Stream : Type := {
  streamID : nat;
  streamPeer : PeerID;
  streamProto : ProtocolID
}.

#[global] Instance Stream_eq_dec : EqDecision Stream.
Proof. solve_decision. Defined.

(** The networking host, an external collaborator.  [ID] is [h.ID()]; the
    other fields are the answers of the network, indexed by the logical
    time of the question:
    - [negotiate ctx p proto t]: the outcome of negotiating [proto] with
      peer [p] ([None] when the peer accepts it);
    - [liveness st t]: the outcome of a liveness check of an open stream;
    - [streamWrite st bytes t]: the outcome of writing to a stream;
    - [streamResponse st t]: what a read started at [t] receives, and after
      which delay in nanoseconds ([None] when nothing ever arrives). *)
Record Host : Type := {
  ID : PeerID;
  negotiate : Context -> PeerID -> ProtocolID -> Z -> option error;
  liveness : Stream -> Z -> option error;
  streamWrite : Stream -> list byte -> Z -> option error;
  streamResponse : Stream -> Z -> option (N * (error + list byte))
}.

(** What was asked of the network, oldest first: the negotiation of one
    protocol and whether the peer accepted it, a write and its outcome, the
    start of a read. *)
Inductive IOEvent : Type :=
  | EvNegotiate (p : PeerID) (proto : ProtocolID) (accepted : bool)
  | EvWrite (st : Stream) (bytes : list byte) (res : option error)
  | EvRead (st : Stream).

(** The methods of a sender that the client code calls, with the sender they
    are called on. *)
Inductive Call : Type :=
  | CallPrepOrInvalidate (ms : ptr) (res : option error)
  | CallSendRequest (ms : ptr)
  | CallSendMessage (ms : ptr).

(** ** The sender object *)

(** Modelled from the spec: the type [ctxMutex] and [newCtxMutex] are not in
    client.go.  A cancellable lock is free or held; a new one is free. *)
Record ctxMutex : Type := { held : bool }.

Definition newCtxMutex : ctxMutex := {| held := false |}.

(** Modelled from the spec: the declaration of [peerMessageSender] is not in
    client.go.  The composite literal in [peerSender] shows the fields
    [peerID] and [ctxLock]; the spec adds the stream handle, present or
    absent, and the mark of an invalid sender.  Fields that a composite
    literal leaves out hold their zero value. *)
Record peerMessageSender : Type := {
  peerID : PeerID;
  ctxLock : ctxMutex;
  stream : option Stream;
  invalid : bool
}.

(** ** The client *)

(** [type Client struct].  The field [sendersLock] is not a component of the
    state: its critical sections are the atomic transitions below. *)
Record Client : Type := {
  ctx : Context;
  host : Host;
  self : PeerID;
  peerSenders : gmap string nat;
  protocols : list ProtocolID
}.

(** The memory a goroutine works on: the client, the heap of sender
    objects (an address is an index into it), the logical clock, the number
    of streams opened so far, the log of network events and, as a ghost
    field, the sender methods that the running call of the client has
    invoked so far. *)
Record World : Type := {
  client : Client;
  heap : list peerMessageSender;
  clock : Z;
  opened : nat;
  netlog : list IOEvent;
  calls : list Call
}.

Definition setPeerSenders (m : gmap string nat) (w : World) : World :=
  {| client := {| ctx := ctx (client w); host := host (client w);
                  self := self (client w); peerSenders := m;
                  protocols := protocols (client w) |};
     heap := heap w; clock := clock w; opened := opened w;
     netlog := netlog w; calls := calls w |}.

Definition setHeap (h : list peerMessageSender) (w : World) : World :=
  {| client := client w; heap := h; clock := clock w; opened := opened w;
     netlog := netlog w; calls := calls w |}.

Definition setCalls (l : list Call) (w : World) : World :=
  {| client := client w; heap := heap w; clock := clock w;
     opened := opened w; netlog := netlog w; calls := l |}.

(** [c.peerSenders] of the world's client. *)
Definition registry (w : World) : gmap string nat := peerSenders (client w).

(** *** Construction and its options *)

(** Modelled from the spec: [clientConfig], [ClientOption] and
    [clientConfig.apply] are not in client.go.  The recognised options are
    the accepted protocol identifiers, by preference, and the response-read
    timeout; an option is a function that updates the configuration or
    fails, and [apply] runs the options in order and stops at the first
    failure. *)
Record clientConfig : Type := {
  cfgProtocols : list ProtocolID;
  cfgReadTimeout : Z
}.

Definition ClientOption : Type := clientConfig -> error + clientConfig.

Fixpoint apply (cfg : clientConfig) (options : list ClientOption)
  : error + clientConfig :=
  match options with
  | [] => inr cfg
  | opt :: rest =>
      match opt cfg with
      | inl err => inl err
      | inr cfg' => apply cfg' rest
      end
  end.

(** [var cfg clientConfig]: the zero value. *)
Definition zeroConfig : clientConfig :=
  {| cfgProtocols := []; cfgReadTimeout := 0%Z |}.

(** The option that sets the accepted protocol identifiers. *)
Definition Protocols (ps : list ProtocolID) : ClientOption :=
  fun cfg => inr {| cfgProtocols := ps; cfgReadTimeout := cfgReadTimeout cfg |}.

(** An option that always fails. *)
Definition BadOption (err : error) : ClientOption := fun _ => inl err.

(** [func NewClient(ctx, h, protoID, options...)], returning the client or
    an error. *)
Definition NewClient (ctx0 : Context) (h : Host) (protoID : ProtocolID)
    (options : list ClientOption) : error + Client :=
  match apply zeroConfig options with
  | inl err => inl err
  | inr _ =>
      inr {| ctx := ctx0; host := h; self := ID h; peerSenders := ∅;
             protocols := [protoID] |}
  end.

(** The world right after construction. *)
Definition newWorld (c : Client) : World :=
  {| client := c; heap := []; clock := 0%Z; opened := 0; netlog := [];
     calls := [] |}.

(** *** The registry *)

(** [func (c *Client) peerSender(peerID peer.ID)]: one critical section of
    [sendersLock]; the result is the address of the sender. *)
Definition peerSender (p : PeerID) (w : World) : ptr * World :=
  match registry w !! p with
  | Some ms => (ms, w)
  | None =>
      let ms := length (heap w) in
      let obj := {| peerID := p; ctxLock := newCtxMutex;
                    stream := None; invalid := false |} in
      (ms, setPeerSenders (<[p := ms]> (registry w))
             (setHeap (heap w ++ [obj]) w))
  end.

(** The critical section that [messageSenderForPeer] enters when
    [prepOrInvalidate] returned [err] for [ms] (lines 106-120).  The result
    is the pair that the Go function returns, [None] standing for [nil]. *)
Definition replaceOrEvict (p : PeerID) (ms : ptr) (err : error) (w : World)
  : (option ptr * option error) * World :=
  match registry w !! p with
  | Some msCur =>
      if decide (ms ≠ msCur) then ((Some msCur, None), w)
      else ((None, Some err), setPeerSenders (delete p (registry w)) w)
  | None => ((None, Some err), w)
  end.

(** *** Resolving a sender and sending *)

(** What a call of the client ends with: it returns an error value (or
    [nil]), or it dereferences a nil sender. *)
Inductive outcome : Type :=
  | Return (err : option error)
  | NilSender.

Section ClientMethods.

(** The methods of [peerMessageSender] are not in client.go, and they run
    outside of [sendersLock]: each stands for the method of the sender at
    the given address together with whatever other goroutines do to the
    world in the meantime. *)
Variable prepOrInvalidate :
  ptr -> Context -> Host -> list ProtocolID -> World -> option error * World.
Variable sendRequest :
  ptr -> Context -> Message -> DecodeResponseFunc -> Host ->
  list ProtocolID -> World -> option error * World.
Variable sendMessage :
  ptr -> Context -> Message -> Host -> list ProtocolID -> World ->
  option error * World.

(** [ms.prepOrInvalidate(ctx, c.host, c.protocols)] as the client calls
    it; the call is recorded in the ghost log. *)
Definition callPrepOrInvalidate (ms : ptr) (ctx0 : Context) (w : World)
  : option error * World :=
  let '(res, w') :=
    prepOrInvalidate ms ctx0 (host (client w)) (protocols (client w)) w in
  (res, setCalls (calls w ++ [CallPrepOrInvalidate ms res]) w').

(** [func (c *Client) messageSenderForPeer(ctx, peerID)] *)
Definition messageSenderForPeer (ctx0 : Context) (p : PeerID) (w : World)
  : (option ptr * option error) * World :=
  let '(ms, w1) := peerSender p w in
  match callPrepOrInvalidate ms ctx0 w1 with
  | (Some err, w2) => replaceOrEvict p ms err w2
  | (None, w2) => ((Some ms, None), w2)
  end.

(** [func (c *Client) SendRequest(ctx, p, msg, decodeRsp) error] *)
Definition SendRequest (ctx0 : Context) (p : PeerID) (msg : Message)
    (decodeRsp : DecodeResponseFunc) (w : World) : outcome * World :=
  match messageSenderForPeer ctx0 p w with
  | ((_, Some err), w') => (Return (Some err), w')
  | ((Some sender, None), w') =>
      let '(res, w'') :=
        sendRequest sender ctx0 msg decodeRsp (host (client w'))
          (protocols (client w')) w' in
      (Return res, setCalls (calls w' ++ [CallSendRequest sender]) w'')
  | ((None, None), w') => (NilSender, w')
  end.

(** [func (c *Client) SendMessage(ctx, p, msg) error] *)
Definition SendMessage (ctx0 : Context) (p : PeerID) (msg : Message)
    (w : World) : outcome * World :=
  match messageSenderForPeer ctx0 p w with
  | ((_, Some err), w') => (Return (Some err), w')
  | ((Some sender, None), w') =>
      let '(res, w'') :=
        sendMessage sender ctx0 msg (host (client w'))
          (protocols (client w')) w' in
      match res with
      | Some err => (Return (Some err), setCalls (calls w' ++ [CallSendMessage sender]) w'')
      | None => (Return None, setCalls (calls w' ++ [CallSendMessage sender]) w'')
      end
  | ((None, None), w') => (NilSender, w')
  end.

End ClientMethods.

(** ** Goroutines sharing one client *)

(** Where a goroutine that called [SendRequest] or [SendMessage] for peer
    [p] stands. *)
Inductive goroutine : Type :=
  | Resolving (p : PeerID)
      (* in [messageSenderForPeer], before [peerSender] *)
  | Preparing (p : PeerID) (ms : ptr)
      (* [prepOrInvalidate] of [ms] is running, [sendersLock] not held *)
  | Failed (p : PeerID) (ms : ptr) (err : error)
      (* [prepOrInvalidate] returned [err]; about to take [sendersLock] *)
  | Sending (p : PeerID) (ms : ptr)
      (* [messageSenderForPeer] returned [ms]; the send is running *)
  | Finished (res : option error)
  | Crashed
      (* a method was called on a nil sender *).

(** The transitions, named after what happens in them. *)
Inductive label : Type :=
  | LCall (p : PeerID)
  | LPeerSender (g : nat) (p : PeerID) (ms : ptr)
  | LPrepared (g : nat) (ms : ptr) (res : option error)
  | LReplaceOrEvict (g : nat) (p : PeerID) (ms : ptr)
  | LSent (g : nat) (ms : ptr) (res : option error)
  | LDisconnect (p : PeerID).

(** Modelled from the spec: the methods of [peerMessageSender] are not in
    client.go.  They are called on one sender and are passed the context,
    the host and the protocols, never the client: such a method leaves the
    client alone, allocates no sender, changes no sender but its own, and
    keeps the peer identity of its own. *)
Definition senderStep (ms : ptr) (w w' : World) : Prop :=
  client w' = client w ∧
  length (heap w') = length (heap w) ∧
  (∀ a : nat, a ≠ ms → heap w' !! a = heap w !! a) ∧
  (∀ o' : peerMessageSender, heap w' !! ms = Some o' →
     ∃ o : peerMessageSender, heap w !! ms = Some o ∧ peerID o' = peerID o).

(** Where a goroutine goes after the critical section of
    [messageSenderForPeer], and from there in [SendRequest]/[SendMessage]. *)
Definition afterResolve (p : PeerID) (r : option ptr * option error)
  : goroutine :=
  match r with
  | (_, Some err) => Finished (Some err)
  | (Some sender, None) => Sending p sender
  | (None, None) => Crashed
  end.

(** One transition of the system.  [LDisconnect] is the disconnect that the
    comment at the end of [messageSenderForPeer] refers to: something
    outside of client.go that removes the entry of a peer. *)
Inductive lstep : World * list goroutine -> label -> World * list goroutine -> Prop :=
  | go_call w gs p :
      lstep (w, gs) (LCall p) (w, gs ++ [Resolving p])
  | go_peerSender w gs g p ms w' :
      gs !! g = Some (Resolving p) ->
      peerSender p w = (ms, w') ->
      lstep (w, gs) (LPeerSender g p ms) (w', <[g := Preparing p ms]> gs)
  | go_prepared_ok w gs g p ms w' :
      gs !! g = Some (Preparing p ms) ->
      senderStep ms w w' ->
      lstep (w, gs) (LPrepared g ms None) (w', <[g := Sending p ms]> gs)
  | go_prepared_err w gs g p ms err w' :
      gs !! g = Some (Preparing p ms) ->
      senderStep ms w w' ->
      lstep (w, gs) (LPrepared g ms (Some err)) (w', <[g := Failed p ms err]> gs)
  | go_replaceOrEvict w gs g p ms err r w' :
      gs !! g = Some (Failed p ms err) ->
      replaceOrEvict p ms err w = (r, w') ->
      lstep (w, gs) (LReplaceOrEvict g p ms) (w', <[g := afterResolve p r]> gs)
  | go_sent w gs g p ms res w' :
      gs !! g = Some (Sending p ms) ->
      senderStep ms w w' ->
      lstep (w, gs) (LSent g ms res) (w', <[g := Finished res]> gs)
  | go_disconnect w gs p :
      lstep (w, gs) (LDisconnect p)
        (setPeerSenders (delete p (registry w)) w, gs).

(** Executions, with the labels of their transitions in order. *)
Inductive exec : World * list goroutine -> list label -> World * list goroutine -> Prop :=
  | exec_nil cf : exec cf [] cf
  | exec_cons cf l cf' ls cf'' :
      lstep cf l cf' -> exec cf' ls cf'' -> exec cf (l :: ls) cf''.

(** The configurations that a client built by [NewClient] can be in. *)
Definition reachable (cf : World * list goroutine) : Prop :=
  ∃ (ctx0 : Context) (h : Host) (protoID : ProtocolID)
    (options : list ClientOption) (c : Client) (ls : list label),
    NewClient ctx0 h protoID options = inr c ∧
    exec (newWorld c, []) ls cf.

(** The sender [ms] is an entry of the registry. *)
Definition inRegistry (w : World) (ms : ptr) : Prop :=
  ∃ p : PeerID, registry w !! p = Some ms.

(** The sender [ms] is reachable from the registry as a sender of peer
    [p]: it is an entry, and [p] is the peer identity it holds. *)
Definition senderOf (w : World) (p : PeerID) (ms : ptr) : Prop :=
  inRegistry w ms ∧
  ∃ o : peerMessageSender, heap w !! ms = Some o ∧ peerID o = p.

(** The registry is consistent with the heap: every entry is the address of
    an allocated sender that holds the peer identity it is filed under. *)
Definition registryOK (w : World) : Prop :=
  ∀ (p : PeerID) (ms : ptr), registry w !! p = Some ms →
    ∃ o : peerMessageSender, heap w !! ms = Some o ∧ peerID o = p.

(** A sender freshly made by [peerSender] for peer [p]. *)
Definition unpreparedSender (p : PeerID) : peerMessageSender :=
  {| peerID := p; ctxLock := newCtxMutex; stream := None; invalid := false |}.

(** ** The sender's methods *)

Module Sender.

Definition setSender (ms : ptr) (o : peerMessageSender) (w : World) : World :=
  setHeap (<[ms := o]> (heap w)) w.

Definition setClock (t : Z) (w : World) : World :=
  {| client := client w; heap := heap w; clock := t; opened := opened w;
     netlog := netlog w; calls := calls w |}.

Definition setOpened (n : nat) (w : World) : World :=
  {| client := client w; heap := heap w; clock := clock w; opened := n;
     netlog := netlog w; calls := calls w |}.

Definition logIO (evs : list IOEvent) (w : World) : World :=
  {| client := client w; heap := heap w; clock := clock w;
     opened := opened w; netlog := netlog w ++ evs; calls := calls w |}.

(** Modelled from the spec: [ctxMutex.Lock] and [ctxMutex.Unlock] are not
    in client.go.  [acquire] blocks until the lock is free and fails when
    the cancellation signal fires first; with one goroutine running, a
    held lock is never freed, so waiting for it ends with the
    cancellation. *)
Definition Lock (ctx0 : Context) (m : ctxMutex) : error + ctxMutex :=
  if held m then inl ErrCanceled else inr {| held := true |}.

Definition Unlock (m : ctxMutex) : ctxMutex := {| held := false |}.

(** Modelled from the spec: the host's [openStream(ctx, peerID,
    protocolPreferenceList)] is an external collaborator.  The protocols
    are tried in the order of the list and the first one that the peer
    accepts wins; when every one fails, the error of the last attempt is
    the result.  The second component lists the attempts. *)
Fixpoint openStream (h : Host) (ctx0 : Context) (p : PeerID)
    (protos : list ProtocolID) (t : Z) : (error + ProtocolID) * list IOEvent :=
  match protos with
  | [] => (inl (ErrMsg "no protocol to negotiate"), [])
  | proto :: rest =>
      match negotiate h ctx0 p proto t with
      | None => (inr proto, [EvNegotiate p proto true])
      | Some err =>
          let '(r, evs) := openStream h ctx0 p rest t in
          (match rest with [] => inl err | _ :: _ => r end,
           EvNegotiate p proto false :: evs)
      end
  end.

(** The sender [o] with its lock released, its handle discarded and the
    mark of an invalid sender. *)
Definition invalidated (o : peerMessageSender) : peerMessageSender :=
  {| peerID := peerID o; ctxLock := Unlock (ctxLock o); stream := None;
     invalid := true |}.

(** The sender [o] with its lock released. *)
Definition released (o : peerMessageSender) : peerMessageSender :=
  {| peerID := peerID o; ctxLock := Unlock (ctxLock o); stream := stream o;
     invalid := invalid o |}.

(** Modelled from the spec: [peerMessageSender.prepOrInvalidate] is not in
    client.go.  It acquires the lock; an invalid sender stays without a
    handle; a present handle is checked for liveness; an absent one is
    opened by [openStream].  On success the lock stays held for the send
    that follows; on failure the sender is marked invalid, the handle is
    absent and the lock is released. *)
Definition prepOrInvalidate (ms : ptr) (ctx0 : Context) (h : Host)
    (protos : list ProtocolID) (w : World) : option error * World :=
  match heap w !! ms with
  | None => (Some (ErrMsg "no such sender"), w)
  | Some o =>
      match Lock ctx0 (ctxLock o) with
      | inl err => (Some err, w)
      | inr lk =>
          if invalid o then
            (Some (ErrMsg "message sender has been invalidated"),
             setSender ms (invalidated o) w)
          else
            match stream o with
            | Some st =>
                match liveness h st (clock w) with
                | None =>
                    (None,
                     setSender ms {| peerID := peerID o; ctxLock := lk;
                                     stream := Some st; invalid := false |} w)
                | Some err => (Some err, setSender ms (invalidated o) w)
                end
            | None =>
                match openStream h ctx0 (peerID o) protos (clock w) with
                | (inr proto, evs) =>
                    let st := {| streamID := opened w;
                                 streamPeer := peerID o;
                                 streamProto := proto |} in
                    (None,
                     setOpened (S (opened w))
                       (logIO evs
                          (setSender ms
                             {| peerID := peerID o; ctxLock := lk;
                                stream := Some st; invalid := false |} w)))
                | (inl err, evs) =>
                    (Some err, logIO evs (setSender ms (invalidated o) w))
                end
            end
      end
  end.

(** Modelled from the spec: [peerMessageSender.sendRequest] is not in
    client.go.  Called with the lock held.  It writes the message; a write
    error invalidates the stream.  It then reads within
    [readMessageTimeout] of the start of the read: when nothing arrives
    before the end of that window the result is [ErrReadTimeout] and the
    stream is torn down; a read error tears it down as well.  The bytes
    read go to [decodeRsp], whose error is returned as it is, the stream
    being kept.  The lock is released on every path.  The spec does not
    say what a send without a handle does: it fails. *)
Definition sendRequest (ms : ptr) (ctx0 : Context) (msg : Message)
    (decodeRsp : DecodeResponseFunc) (h : Host) (protos : list ProtocolID)
    (w : World) : option error * World :=
  match heap w !! ms with
  | None => (Some (ErrMsg "no such sender"), w)
  | Some o =>
      match stream o with
      | None => (Some (ErrMsg "no stream"), setSender ms (released o) w)
      | Some st =>
          let wr := streamWrite h st msg (clock w) in
          match wr with
          | Some err =>
              (Some err,
               logIO [EvWrite st msg wr] (setSender ms (invalidated o) w))
          | None =>
              let w1 := logIO [EvWrite st msg wr; EvRead st] w in
              let timedOut :=
                (Some ErrReadTimeout,
                 setClock (clock w + readMessageTimeout)
                   (setSender ms (invalidated o) w1)) in
              match streamResponse h st (clock w) with
              | None => timedOut
              | Some (d, r) =>
                  if (Z.of_N d <? readMessageTimeout)%Z then
                    match r with
                    | inl err =>
                        (Some err,
                         setClock (clock w + Z.of_N d)
                           (setSender ms (invalidated o) w1))
                    | inr bytes =>
                        (decodeRsp bytes,
                         setClock (clock w + Z.of_N d)
                           (setSender ms (released o) w1))
                    end
                  else timedOut
              end
          end
      end
  end.

(** Modelled from the spec: [peerMessageSender.sendMessage] is not in
    client.go.  The write path of [sendRequest], without the read. *)
Definition sendMessage (ms : ptr) (ctx0 : Context) (msg : Message)
    (h : Host) (protos : list ProtocolID) (w : World)
  : option error * World :=
  match heap w !! ms with
  | None => (Some (ErrMsg "no such sender"), w)
  | Some o =>
      match stream o with
      | None => (Some (ErrMsg "no stream"), setSender ms (released o) w)
      | Some st =>
          let wr := streamWrite h st msg (clock w) in
          match wr with
          | Some err =>
              (Some err,
               logIO [EvWrite st msg wr] (setSender ms (invalidated o) w))
          | None =>
              (None, logIO [EvWrite st msg wr] (setSender ms (released o) w))
          end
      end
  end.

(** The client's entry points over these methods. *)
Definition resolve : Context -> PeerID -> World -> (option ptr * option error) * World :=
  messageSenderForPeer prepOrInvalidate.

Definition request : Context -> PeerID -> Message -> DecodeResponseFunc ->
    World -> outcome * World :=
  SendRequest prepOrInvalidate sendRequest.

End Sender.

(** ** A network for the examples *)

(** A host whose peers accept protocol [v1] only, whose streams are alive
    and writable, and whose peers answer a request after one second with
    the byte [x01]. *)
Definition hostV1 : Host :=
  {| ID := "self";
     negotiate := fun _ _ proto _ =>
       if decide (proto = "v1") then None
       else Some (ErrMsg "protocol not supported");
     liveness := fun _ _ => None;
     streamWrite := fun _ _ _ => None;
     streamResponse := fun _ _ => Some (1000000000%N, inr [x01]) |}.

(** The same network with peers that never answer. *)
Definition hostSilent : Host :=
  {| ID := "self";
     negotiate := negotiate hostV1;
     liveness := liveness hostV1;
     streamWrite := streamWrite hostV1;
     streamResponse := fun _ _ => None |}.

Definition background : Context := {| doneAt := None |}.

(** A client as [NewClient] makes it, and its first world. *)
Definition exampleClient : Client :=
  {| ctx := background; host := hostV1; self := "self"; peerSenders := ∅;
     protocols := ["v1"%string] |}.

Definition exampleWorld : World := newWorld exampleClient.

(** A [prepOrInvalidate] that fails to dial. *)
Definition failingPrep (ms : ptr) (ctx0 : Context) (h : Host)
    (protos : list ProtocolID) (w : World) : option error * World :=
  (Some (ErrMsg "dial failed"), w).

(** A [prepOrInvalidate] that fails to dial while another goroutine evicts
    the entry of peer [P] and a third one files the sender [7] for it. *)
Definition overtakenPrep (ms : ptr) (ctx0 : Context) (h : Host)
    (protos : list ProtocolID) (w : World) : option error * World :=
  (Some (ErrMsg "dial failed"), setPeerSenders (<["P"%string := 7]> (registry w)) w).

(** A [prepOrInvalidate] that fails to dial while a disconnect removes the
    entry of peer [P]. *)
Definition disconnectedPrep (ms : ptr) (ctx0 : Context) (h : Host)
    (protos : list ProtocolID) (w : World) : option error * World :=
  (Some (ErrMsg "dial failed"), setPeerSenders (delete "P"%string (registry w)) w).

(** A send that succeeds and changes nothing. *)
Definition idleSendRequest (ms : ptr) (ctx0 : Context) (msg : Message)
    (decodeRsp : DecodeResponseFunc) (h : Host) (protos : list ProtocolID)
    (w : World) : option error * World := (None, w).

Definition idleSendMessage (ms : ptr) (ctx0 : Context) (msg : Message)
    (h : Host) (protos : list ProtocolID) (w : World)
  : option error * World := (None, w).

(** The example world after [peerSender] ran for peer [P]. *)
Definition worldP : World := snd (peerSender "P" exampleWorld).

(** Two goroutines resolved peer [P] and hold the same sender. *)
Definition cfShared : World * list goroutine :=
  (worldP, [Preparing "P" 0; Preparing "P" 0]).

(** The preparation of the first one failed. *)
Definition cfFailed : World * list goroutine :=
  (worldP, [Failed "P" 0 (ErrMsg "dial failed"); Preparing "P" 0]).

(** It evicted the sender. *)
Definition cfEvicted : World * list goroutine :=
  (setPeerSenders (delete "P"%string (registry worldP)) worldP,
   [Finished (Some (ErrMsg "dial failed")); Preparing "P" 0]).

(** A third call for peer [P] arrived. *)
Definition cfRetry : World * list goroutine :=
  (cfEvicted.1, cfEvicted.2 ++ [Resolving "P"]).

(** Its [peerSender] ran. *)
Definition cfFresh : World * list goroutine :=
  (snd (peerSender "P" cfRetry.1),
   [Finished (Some (ErrMsg "dial failed")); Preparing "P" 0; Preparing "P" 1]).

(** A decoder that rejects every response, and one that accepts them. *)
Definition rejectAll : DecodeResponseFunc :=
  fun _ => Some (ErrMsg "bad response").

Definition acceptAll : DecodeResponseFunc := fun _ => None.

(** The second goroutine, whose sender was evicted meanwhile, fails to
    prepare it. *)
Definition cfLate : World * list goroutine :=
  (cfFresh.1,
   [Finished (Some (ErrMsg "dial failed"));
    Failed "P" 0 (ErrMsg "dial failed"); Preparing "P" 1]).

(** It finds the sender of the third one in the registry and sends on it. *)
Definition cfOvertaken : World * list goroutine :=
  (cfFresh.1,
   [Finished (Some (ErrMsg "dial failed")); Sending "P" 1; Preparing "P" 1]).




(** ** Goroutines and the locks of the senders *)

(** Modelled from the spec: [peerMessageSender.sendRequest] is not in
    client.go.  These are the two halves of [Sender.sendRequest], between
    which other goroutines may run: the write of the request, which fails
    and releases the lock when there is no handle or the write fails; and
    the read of the response on the stream that was written to, with the
    decoding, which releases the lock on every path. *)
Definition writeRequest (ms : ptr) (msg : Message) (h : Host) (w : World)
  : (error * World) + (Stream * World) :=
  match heap w !! ms with
  | None => inl (ErrMsg "no such sender", w)
  | Some o =>
      match stream o with
      | None =>
          inl (ErrMsg "no stream", Sender.setSender ms (Sender.released o) w)
      | Some st =>
          let wr := streamWrite h st msg (clock w) in
          match wr with
          | Some err =>
              inl (err,
                   Sender.logIO [EvWrite st msg wr]
                     (Sender.setSender ms (Sender.invalidated o) w))
          | None => inr (st, Sender.logIO [EvWrite st msg wr; EvRead st] w)
          end
      end
  end.

Definition readResponse (ms : ptr) (st : Stream)
    (decodeRsp : DecodeResponseFunc) (h : Host) (w : World)
  : option error * World :=
  match heap w !! ms with
  | None => (Some (ErrMsg "no such sender"), w)
  | Some o =>
      let timedOut :=
        (Some ErrReadTimeout,
         Sender.setClock (clock w + readMessageTimeout)
           (Sender.setSender ms (Sender.invalidated o) w)) in
      match streamResponse h st (clock w) with
      | None => timedOut
      | Some (d, r) =>
          if (Z.of_N d <? readMessageTimeout)%Z then
            match r with
            | inl err =>
                (Some err,
                 Sender.setClock (clock w + Z.of_N d)
                   (Sender.setSender ms (Sender.invalidated o) w))
            | inr bytes =>
                (decodeRsp bytes,
                 Sender.setClock (clock w + Z.of_N d)
                   (Sender.setSender ms (Sender.released o) w))
            end
          else timedOut
      end
  end.








(** *** Serialization on one sender *)












(** The lock of the sender at [ms] is held. *)
Definition lockBit (w : World) (ms : ptr) : bool :=
  match heap w !! ms with
  | Some o => held (ctxLock o)
  | None => false
  end.


(** *** Tasks and peers *)





(** *** A network that honours contexts *)






(** ** Sender methods without interference *)

(** A method of the sender at [ms], run while no other goroutine runs:
    whatever it returns, its effect on the world is a [senderStep]. *)
Definition touchesOnly (ms : ptr) (f : World -> option error * World) : Prop :=
  ∀ w : World, senderStep ms w (f w).2.

(** What the goroutines hold is consistent with the heap: a sender that a
    goroutine prepares, failed to prepare or sends on is allocated and holds
    the peer identity the goroutine was called for; and no goroutine
    crashed. *)
Definition goroutineOK (w : World) (g : goroutine) : Prop :=
  match g with
  | Preparing p ms | Failed p ms _ | Sending p ms =>
      ∃ o : peerMessageSender, heap w !! ms = Some o ∧ peerID o = p
  | Crashed => False
  | Resolving _ | Finished _ => True
  end.

(** The number of [peerSender] transitions among the labels. *)
Fixpoint countLookups (ls : list label) : nat :=
  match ls with
  | [] => 0
  | LPeerSender _ _ _ :: rest => S (countLookups rest)
  | _ :: rest => countLookups rest
  end.

(** The example world with entries for the peers [P] and [Q]. *)
Definition worldPQ : World := snd (peerSender "Q" worldP).

(** * Properties *)

(** ** Construction *)

Lemma NewClient_inr ctx0 h protoID options c :
  NewClient ctx0 h protoID options = inr c ->
  c = {| ctx := ctx0; host := h; self := ID h; peerSenders := ∅;
         protocols := [protoID] |}.
Proof.
  unfold NewClient. destruct (apply zeroConfig options); congruence.
Qed.

(** C8, as the code has it: a [NewClient] whose options apply returns a
    client whose protocol list is the one-element list of the [protoID]
    argument, whatever the options are, with an empty registry, the given
    context and host, and the host's identity; and [NewClient] returns an
    error exactly when applying the options fails, namely that error. *)
Theorem NewClient_protocols_from_protoID
    (ctx0 : Context) (h : Host) (protoID : ProtocolID)
    (options : list ClientOption) :
  match apply zeroConfig options with
  | inl err => NewClient ctx0 h protoID options = inl err
  | inr _ =>
      ∃ c : Client, NewClient ctx0 h protoID options = inr c ∧
        protocols c = [protoID] ∧ peerSenders c = ∅ ∧
        ctx c = ctx0 ∧ host c = h ∧ self c = ID h
  end ∧
  (∀ err : error,
     NewClient ctx0 h protoID options = inl err ↔
     apply zeroConfig options = inl err).
Proof.
  unfold NewClient. destruct (apply zeroConfig options) as [err|cfg].
  - split; [reflexivity|]. intros err'; split; congruence.
  - split.
    + eexists; split; [reflexivity|]. simpl. auto.
    + intros err'; split; congruence.
Qed.

(** C8, refuted as stated: the option that names the accepted protocols
    [v2], [v1] leaves a client that holds [v1] alone, the [protoID]
    argument; and the protocol list is no function of the options, since
    equal options with different [protoID] give different lists. *)
Lemma NewClient_protocols_not_from_options :
  (∃ c : Client,
     NewClient background hostV1 "v1" [Protocols ["v2"; "v1"]%string] = inr c ∧
     protocols c = ["v1"%string] ∧ protocols c ≠ ["v2"; "v1"]%string) ∧
  ¬ (∃ f : list ClientOption -> list ProtocolID,
       ∀ ctx0 h protoID options c,
         NewClient ctx0 h protoID options = inr c -> protocols c = f options).
Proof.
  split.
  - eexists; split; [reflexivity|]. simpl. split; [reflexivity|discriminate].
  - intros [f Hf].
    pose proof (Hf background hostV1 "v1"%string [] _ eq_refl) as H1.
    pose proof (Hf background hostV1 "v2"%string [] _ eq_refl) as H2.
    simpl in H1, H2. congruence.
Qed.

(** An option that fails makes [NewClient] fail with its error, also when
    it comes after one that names protocols. *)
Example NewClient_bad_option :
  NewClient background hostV1 "v1"
    [Protocols ["v2"; "v1"]%string; BadOption (ErrMsg "bad option")] =
  inl (ErrMsg "bad option").
Proof. reflexivity. Qed.

(** ** The registry: [peerSender] *)

Lemma registry_setPeerSenders m w : registry (setPeerSenders m w) = m.
Proof. reflexivity. Qed.

Lemma heap_setPeerSenders m w : heap (setPeerSenders m w) = heap w.
Proof. reflexivity. Qed.

Lemma peerSender_found p w ms :
  registry w !! p = Some ms -> peerSender p w = (ms, w).
Proof. intros H. unfold peerSender. by rewrite H. Qed.

Lemma peerSender_missing p w :
  registry w !! p = None ->
  peerSender p w =
    (length (heap w),
     setPeerSenders (<[p := length (heap w)]> (registry w))
       (setHeap (heap w ++ [unpreparedSender p]) w)).
Proof. intros H. unfold peerSender. by rewrite H. Qed.

(** C4: [peerSender] returns the entry of the registry when there is one
    and leaves the world as it is; otherwise it returns the next free
    address, at which it put a sender with that peer identity, a new lock
    and no stream handle, and which it filed under the peer identity,
    leaving the other entries and the other senders as they were. *)
Theorem peerSender_lookupOrCreate (p : PeerID) (w : World) :
  match registry w !! p with
  | Some ms => peerSender p w = (ms, w)
  | None =>
      ∃ (ms : ptr) (w' : World),
        peerSender p w = (ms, w') ∧
        heap w !! ms = None ∧
        heap w' = heap w ++ [unpreparedSender p] ∧
        heap w' !! ms =
          Some {| peerID := p; ctxLock := newCtxMutex; stream := None;
                  invalid := false |} ∧
        held (ctxLock (unpreparedSender p)) = false ∧
        registry w' = <[p := ms]> (registry w) ∧
        registry w' !! p = Some ms ∧
        (∀ q : PeerID, q ≠ p → registry w' !! q = registry w !! q) ∧
        (∀ a : ptr, a ≠ ms → heap w' !! a = heap w !! a)
  end.
Proof.
  destruct (registry w !! p) as [ms|] eqn:E.
  - by apply peerSender_found.
  - exists (length (heap w)), (setPeerSenders (<[p := length (heap w)]> (registry w))
       (setHeap (heap w ++ [unpreparedSender p]) w)).
    split; [by apply peerSender_missing|].
    split; [apply lookup_ge_None; lia|].
    split; [reflexivity|].
    split.
    { simpl. rewrite lookup_app_r by lia. by rewrite Nat.sub_diag. }
    split; [reflexivity|].
    split; [reflexivity|].
    split; [rewrite registry_setPeerSenders; apply lookup_insert_eq|].
    split.
    + intros q Hq. rewrite registry_setPeerSenders. by apply lookup_insert_ne.
    + intros a Ha. simpl.
      destruct (decide (a < length (heap w))) as [Hlt|Hge].
      * by rewrite lookup_app_l.
      * rewrite !lookup_ge_None_2; [done|lia|rewrite length_app; simpl; lia].
Qed.

(** ** The replace-or-evict protocol *)

Lemma replaceOrEvict_changed p ms err w msCur :
  registry w !! p = Some msCur -> msCur ≠ ms ->
  replaceOrEvict p ms err w = ((Some msCur, None), w).
Proof.
  intros H Hne. unfold replaceOrEvict. rewrite H.
  destruct (decide (ms ≠ msCur)) as [|Heq]; [done|].
  exfalso. apply Heq. congruence.
Qed.

Lemma replaceOrEvict_same p ms err w :
  registry w !! p = Some ms ->
  replaceOrEvict p ms err w =
    ((None, Some err), setPeerSenders (delete p (registry w)) w).
Proof.
  intros H. unfold replaceOrEvict. rewrite H.
  destruct (decide (ms ≠ ms)) as [Hne|]; [by destruct Hne|done].
Qed.

Lemma replaceOrEvict_absent p ms err w :
  registry w !! p = None ->
  replaceOrEvict p ms err w = ((None, Some err), w).
Proof. intros H. unfold replaceOrEvict. by rewrite H. Qed.

Lemma messageSenderForPeer_failed prep ctx0 p w ms w1 e w2 :
  peerSender p w = (ms, w1) ->
  callPrepOrInvalidate prep ms ctx0 w1 = (Some e, w2) ->
  messageSenderForPeer prep ctx0 p w = replaceOrEvict p ms e w2.
Proof.
  intros H1 H2. unfold messageSenderForPeer. by rewrite H1, H2.
Qed.

(** C1: when the preparation of the sender [ms] that [peerSender] gave
    fails with [e], [messageSenderForPeer] ends in exactly one of three
    ways, decided by the entry of the peer at the time the lock is taken
    again: an entry other than [ms] is returned with a nil error and the
    world stays as it is; the entry [ms] is deleted, nothing else changes,
    and [e] is returned; without an entry, [e] is returned and the world
    stays as it is. *)
Theorem replace_or_evict_protocol
    (prep : ptr -> Context -> Host -> list ProtocolID -> World -> option error * World)
    (ctx0 : Context) (p : PeerID) (w : World)
    (ms : ptr) (w1 : World) (e : error) (w2 : World) :
  peerSender p w = (ms, w1) ->
  callPrepOrInvalidate prep ms ctx0 w1 = (Some e, w2) ->
  (∀ msCur : ptr, registry w2 !! p = Some msCur → msCur ≠ ms →
     messageSenderForPeer prep ctx0 p w = ((Some msCur, None), w2)) ∧
  (registry w2 !! p = Some ms →
     ∃ w3 : World,
       messageSenderForPeer prep ctx0 p w = ((None, Some e), w3) ∧
       registry w3 = delete p (registry w2) ∧
       registry w3 !! p = None ∧
       (∀ q : PeerID, q ≠ p → registry w3 !! q = registry w2 !! q) ∧
       heap w3 = heap w2 ∧ calls w3 = calls w2 ∧ clock w3 = clock w2) ∧
  (registry w2 !! p = None →
     messageSenderForPeer prep ctx0 p w = ((None, Some e), w2)) ∧
  ((∃ msCur : ptr, registry w2 !! p = Some msCur ∧ msCur ≠ ms) ∨
   registry w2 !! p = Some ms ∨ registry w2 !! p = None).
Proof.
  intros H1 H2.
  rewrite (messageSenderForPeer_failed _ _ _ _ _ _ _ _ H1 H2).
  repeat split.
  - intros msCur Hcur Hne. by apply replaceOrEvict_changed.
  - intros Hcur. eexists. split; [by apply replaceOrEvict_same|].
    rewrite registry_setPeerSenders. repeat split.
    + apply lookup_delete_eq.
    + intros q Hq. by apply lookup_delete_ne.
  - intros Hnone. by apply replaceOrEvict_absent.
  - destruct (registry w2 !! p) as [msCur|]; [|by right; right].
    destruct (decide (msCur = ms)) as [->|Hne]; [by right; left|].
    left. by exists msCur.
Qed.

Lemma replace_or_evict_protocol_witness :
  messageSenderForPeer overtakenPrep background "P" exampleWorld =
    ((Some 7, None),
     snd (callPrepOrInvalidate overtakenPrep 0 background
            (snd (peerSender "P" exampleWorld)))) ∧
  (∃ w3 : World,
     messageSenderForPeer failingPrep background "P" exampleWorld =
       ((None, Some (ErrMsg "dial failed")), w3) ∧
     registry w3 !! "P"%string = None) ∧
  messageSenderForPeer disconnectedPrep background "P" exampleWorld =
    ((None, Some (ErrMsg "dial failed")),
     snd (callPrepOrInvalidate disconnectedPrep 0 background
            (snd (peerSender "P" exampleWorld)))).
Proof.
  split; [|split].
  - refine (proj1 (replace_or_evict_protocol overtakenPrep background "P"
              exampleWorld 0 _ (ErrMsg "dial failed") _ eq_refl eq_refl)
              7 _ _).
    + vm_compute. reflexivity.
    + lia.
  - destruct (proj1 (proj2 (replace_or_evict_protocol failingPrep background
              "P" exampleWorld 0 _ (ErrMsg "dial failed") _ eq_refl eq_refl)))
      as (w3 & Hres & _ & Hnone & _).
    + vm_compute. reflexivity.
    + exists w3. split; [exact Hres|exact Hnone].
  - refine (proj1 (proj2 (proj2 (replace_or_evict_protocol disconnectedPrep
              background "P" exampleWorld 0 _ (ErrMsg "dial failed") _
              eq_refl eq_refl))) _).
    vm_compute. reflexivity.
Defined.

(** ** The changed-entry path *)

Lemma peerSender_calls p w ms w' :
  peerSender p w = (ms, w') -> calls w' = calls w.
Proof.
  unfold peerSender. destruct (registry w !! p); intros [= <- <-]; reflexivity.
Qed.

Lemma callPrepOrInvalidate_calls prep ms ctx0 w res w' :
  callPrepOrInvalidate prep ms ctx0 w = (res, w') ->
  calls w' = calls w ++ [CallPrepOrInvalidate ms res].
Proof.
  unfold callPrepOrInvalidate.
  destruct (prep ms ctx0 (host (client w)) (protocols (client w)) w) as [r v].
  intros [= <- <-]. reflexivity.
Qed.

(** C10: when the preparation of the caller's sender [ms] fails while the
    registry holds another sender [msCur] for the peer,
    [messageSenderForPeer] returns [msCur] with a nil error, and
    [SendRequest] and [SendMessage] go on to send on [msCur]: they return
    what the send on [msCur] returns, in the world that this send leaves,
    with the call added to the log; the sender methods that the call
    invoked are the failed [prepOrInvalidate] of [ms] and the send on
    [msCur], so that the caller never called [prepOrInvalidate] on [msCur]
    and never saw a preparation succeed. *)
Theorem changed_entry_sends_unprepared
    (prep : ptr -> Context -> Host -> list ProtocolID -> World -> option error * World)
    (sendReq : ptr -> Context -> Message -> DecodeResponseFunc -> Host ->
               list ProtocolID -> World -> option error * World)
    (sendMsg : ptr -> Context -> Message -> Host -> list ProtocolID ->
               World -> option error * World)
    (ctx0 : Context) (p : PeerID) (msg : Message)
    (decodeRsp : DecodeResponseFunc) (w : World)
    (ms : ptr) (w1 : World) (e : error) (w2 : World) (msCur : ptr) :
  peerSender p w = (ms, w1) ->
  callPrepOrInvalidate prep ms ctx0 w1 = (Some e, w2) ->
  registry w2 !! p = Some msCur ->
  msCur ≠ ms ->
  messageSenderForPeer prep ctx0 p w = ((Some msCur, None), w2) ∧
  (∃ (res : option error) (w3 w4 : World),
     sendReq msCur ctx0 msg decodeRsp (host (client w2))
       (protocols (client w2)) w2 = (res, w3) ∧
     SendRequest prep sendReq ctx0 p msg decodeRsp w = (Return res, w4) ∧
     w4 = setCalls (calls w2 ++ [CallSendRequest msCur]) w3 ∧
     calls w4 =
       calls w ++ [CallPrepOrInvalidate ms (Some e); CallSendRequest msCur]) ∧
  (∃ (res : option error) (w3 w4 : World),
     sendMsg msCur ctx0 msg (host (client w2)) (protocols (client w2)) w2 =
       (res, w3) ∧
     SendMessage prep sendMsg ctx0 p msg w = (Return res, w4) ∧
     w4 = setCalls (calls w2 ++ [CallSendMessage msCur]) w3 ∧
     calls w4 =
       calls w ++ [CallPrepOrInvalidate ms (Some e); CallSendMessage msCur]) ∧
  (∀ (res : option error) (c : Call),
     c ∈ [CallPrepOrInvalidate ms (Some e); CallSendRequest msCur;
          CallSendMessage msCur] →
     c ≠ CallPrepOrInvalidate msCur res ∧ c ≠ CallPrepOrInvalidate ms None).
Proof.
  intros H1 H2 Hcur Hne.
  assert (Hres : messageSenderForPeer prep ctx0 p w = ((Some msCur, None), w2)).
  { rewrite (messageSenderForPeer_failed _ _ _ _ _ _ _ _ H1 H2).
    by apply replaceOrEvict_changed. }
  assert (Hcalls : calls w2 = calls w ++ [CallPrepOrInvalidate ms (Some e)]).
  { rewrite (callPrepOrInvalidate_calls _ _ _ _ _ _ H2).
    by rewrite (peerSender_calls _ _ _ _ H1). }
  split; [exact Hres|]. split; [|split].
  - destruct (sendReq msCur ctx0 msg decodeRsp (host (client w2))
                (protocols (client w2)) w2) as [res w3] eqn:Esend.
    exists res, w3. eexists. split; [reflexivity|].
    unfold SendRequest. rewrite Hres, Esend. split; [reflexivity|].
    split; [reflexivity|].
    simpl. rewrite Hcalls, <- app_assoc. reflexivity.
  - destruct (sendMsg msCur ctx0 msg (host (client w2))
                (protocols (client w2)) w2) as [res w3] eqn:Esend.
    exists res, w3. eexists. split; [reflexivity|].
    unfold SendMessage. rewrite Hres, Esend.
    destruct res; (split; [reflexivity|]); (split; [reflexivity|]);
      simpl; rewrite Hcalls, <- app_assoc; reflexivity.
  - intros res c Hc.
    repeat (apply elem_of_cons in Hc as [->|Hc]);
      [| | |by apply elem_of_nil in Hc]; split; congruence.
Qed.

Lemma changed_entry_sends_unprepared_witness :
  messageSenderForPeer overtakenPrep background "P" exampleWorld =
    ((Some 7, None),
     snd (callPrepOrInvalidate overtakenPrep 0 background
            (snd (peerSender "P" exampleWorld)))) ∧
  ∃ (res : option error) (w4 : World),
    SendRequest overtakenPrep idleSendRequest background "P" [x01]
      (fun _ => None) exampleWorld = (Return res, w4) ∧
    calls w4 =
      [CallPrepOrInvalidate 0 (Some (ErrMsg "dial failed")); CallSendRequest 7].
Proof.
  destruct (changed_entry_sends_unprepared overtakenPrep idleSendRequest
              idleSendMessage background "P" [x01] (fun _ => None)
              exampleWorld 0 _ (ErrMsg "dial failed") _ 7 eq_refl eq_refl)
    as (Hres & (res & w3 & w4 & _ & Hsend & _ & Hcalls) & _).
  - vm_compute. reflexivity.
  - lia.
  - split; [exact Hres|]. exists res, w4. split; [exact Hsend|exact Hcalls].
Defined.

(** ** Invariants of the registry under concurrent calls *)

(** What one transition does to the registry and to the heap: nothing to
    the registry and nothing to the size of the heap; or the entry of a
    peer without one is set to the address of a sender allocated in this
    transition, which is then a [peerSender] for that peer; or an entry is
    deleted. *)
Lemma lstep_registry w gs l w' gs' :
  lstep (w, gs) l (w', gs') ->
  (registry w' = registry w ∧ length (heap w') = length (heap w) ∧
   (∀ a o, heap w !! a = Some o → ∃ o', heap w' !! a = Some o' ∧ peerID o' = peerID o)) ∨
  (∃ (g : nat) (q : PeerID),
     l = LPeerSender g q (length (heap w)) ∧
     registry w !! q = None ∧
     registry w' = <[q := length (heap w)]> (registry w) ∧
     heap w' = heap w ++ [unpreparedSender q]) ∨
  (∃ q : PeerID, registry w' = delete q (registry w) ∧ heap w' = heap w).
Proof.
  assert (Hsender : ∀ ms v v', senderStep ms v v' →
    registry v' = registry v ∧ length (heap v') = length (heap v) ∧
    (∀ a o, heap v !! a = Some o → ∃ o', heap v' !! a = Some o' ∧ peerID o' = peerID o)).
  { intros ms v v' (Hc & Hlen & Hother & Hown).
    split; [unfold registry; by rewrite Hc|]. split; [done|].
    intros a o Ha. destruct (decide (a = ms)) as [->|Hne].
    - destruct (lookup_lt_is_Some_2 (heap v') ms) as [o' Ho'].
      { rewrite Hlen. by eapply lookup_lt_Some. }
      exists o'. split; [done|].
      destruct (Hown o' Ho') as (o0 & Ho0 & Hp). congruence.
    - exists o. by rewrite Hother. }
  inversion 1; subst.
  - left. eauto.
  - match goal with H : peerSender _ _ = _ |- _ => rename H into Hps end.
    destruct (registry w !! p) as [ms0|] eqn:E.
    + rewrite (peerSender_found _ _ _ E) in Hps. injection Hps as <- <-.
      left. eauto.
    + rewrite (peerSender_missing _ _ E) in Hps. injection Hps as <- <-.
      right; left. exists g, p. auto.
  - left. eauto.
  - left. eauto.
  - match goal with H : replaceOrEvict _ _ _ _ = _ |- _ => rename H into Hre end.
    unfold replaceOrEvict in Hre.
    destruct (registry w !! p) as [msCur|] eqn:E.
    + destruct (decide (ms ≠ msCur)); injection Hre as <- <-.
      * left. eauto.
      * right; right. exists p. auto.
    + injection Hre as <- <-. left. eauto.
  - left. eauto.
  - right; right. exists p. auto.
Qed.

Lemma lstep_registryOK w gs l w' gs' :
  lstep (w, gs) l (w', gs') -> registryOK w -> registryOK w'.
Proof.
  intros Hstep HOK p ms Hp.
  destruct (lstep_registry _ _ _ _ _ Hstep)
    as [(Hreg & _ & Hheap)|[(g & q & _ & Hq & Hreg & Hheap)|(q & Hreg & Hheap)]].
  - rewrite Hreg in Hp. destruct (HOK p ms Hp) as (o & Ho & Hpeer).
    destruct (Hheap ms o Ho) as (o' & Ho' & Hp'). exists o'. split; [done|congruence].
  - rewrite Hreg in Hp. rewrite Hheap.
    destruct (decide (q = p)) as [->|Hne].
    + rewrite lookup_insert_eq in Hp. injection Hp as <-.
      exists (unpreparedSender p). split; [|done].
      rewrite lookup_app_r by lia. by rewrite Nat.sub_diag.
    + rewrite lookup_insert_ne in Hp by done.
      destruct (HOK p ms Hp) as (o & Ho & Hpeer).
      exists o. split; [|done]. by apply lookup_app_l_Some.
  - rewrite Hreg in Hp. apply lookup_delete_Some in Hp as [_ Hp].
    rewrite Hheap. by apply HOK.
Qed.

Lemma exec_registryOK cf ls cf' :
  exec cf ls cf' -> registryOK cf.1 -> registryOK cf'.1.
Proof.
  induction 1 as [|[w gs] l [w' gs'] ls cf'' Hstep _ IH]; [done|].
  intros HOK. apply IH. simpl in *. by eapply lstep_registryOK.
Qed.

Lemma reachable_registryOK w gs : reachable (w, gs) -> registryOK w.
Proof.
  intros (ctx0 & h & protoID & options & c & ls & Hnew & Hexec).
  apply (exec_registryOK _ _ _ Hexec). simpl.
  apply NewClient_inr in Hnew. subst c.
  intros p ms Hp. unfold registry in Hp. simpl in Hp.
  by rewrite lookup_empty in Hp.
Qed.

(** No transition replaces the entry of a peer by another sender: the entry
    stays or goes. *)
Lemma lstep_no_overwrite w gs l w' gs' p ms :
  lstep (w, gs) l (w', gs') ->
  registry w !! p = Some ms ->
  registry w' !! p = Some ms ∨ registry w' !! p = None.
Proof.
  intros Hstep Hp.
  destruct (lstep_registry _ _ _ _ _ Hstep)
    as [(Hreg & _)|[(g & q & _ & Hq & Hreg & _)|(q & Hreg & _)]]; rewrite Hreg.
  - by left.
  - left. rewrite lookup_insert_ne; [done|]. congruence.
  - destruct (decide (q = p)) as [->|Hne].
    + right. apply lookup_delete_eq.
    + left. by rewrite lookup_delete_ne.
Qed.

Lemma registryOK_unique w p ms1 ms2 :
  registryOK w -> senderOf w p ms1 -> senderOf w p ms2 -> ms1 = ms2.
Proof.
  intros HOK [[q1 Hq1] (o1 & Ho1 & Hp1)] [[q2 Hq2] (o2 & Ho2 & Hp2)].
  destruct (HOK q1 ms1 Hq1) as (o1' & Ho1' & Hp1').
  destruct (HOK q2 ms2 Hq2) as (o2' & Ho2' & Hp2').
  assert (q1 = p) by congruence. assert (q2 = p) by congruence.
  subst q1 q2. congruence.
Qed.

(** C2: in every configuration that concurrent calls on a client made by
    [NewClient] can reach, at most one sender is reachable from the
    registry for a peer identity, be it as the entry filed under that
    identity or as an entry that holds that identity; [peerSender] returns
    an existing entry and leaves the world as it is; and no transition
    replaces an existing entry by another sender. *)
Theorem registry_uniqueness (w : World) (gs : list goroutine) :
  reachable (w, gs) ->
  (∀ (p : PeerID) (ms1 ms2 : ptr),
     senderOf w p ms1 → senderOf w p ms2 → ms1 = ms2) ∧
  (∀ (p : PeerID) (ms1 ms2 : ptr),
     registry w !! p = Some ms1 → senderOf w p ms2 → ms1 = ms2) ∧
  (∀ (p : PeerID) (ms : ptr),
     registry w !! p = Some ms → peerSender p w = (ms, w)) ∧
  (∀ (l : label) (w' : World) (gs' : list goroutine) (p : PeerID) (ms : ptr),
     lstep (w, gs) l (w', gs') → registry w !! p = Some ms →
     registry w' !! p = Some ms ∨ registry w' !! p = None).
Proof.
  intros Hreach. pose proof (reachable_registryOK _ _ Hreach) as HOK.
  repeat split.
  - intros p ms1 ms2. by apply registryOK_unique.
  - intros p ms1 ms2 Hp Hs. apply (registryOK_unique w p); [done| |done].
    split; [by exists p|]. by apply HOK.
  - intros p ms. apply peerSender_found.
  - intros l w' gs' p ms. apply lstep_no_overwrite.
Qed.

(** ** Evicted senders *)

(** A sender that is allocated and is no entry of the registry is no entry
    after a transition either. *)
Lemma lstep_keeps_out w gs l w' gs' ms :
  lstep (w, gs) l (w', gs') ->
  ms < length (heap w) -> ¬ inRegistry w ms ->
  ms < length (heap w') ∧ ¬ inRegistry w' ms.
Proof.
  intros Hstep Hlt Hout.
  destruct (lstep_registry _ _ _ _ _ Hstep)
    as [(Hreg & Hlen & _)|[(g & q & _ & Hq & Hreg & Hheap)|(q & Hreg & Hheap)]].
  - split; [lia|]. intros [p Hp]. apply Hout. exists p. by rewrite <- Hreg.
  - split; [rewrite Hheap, length_app; lia|].
    intros [p Hp]. rewrite Hreg in Hp.
    destruct (decide (q = p)) as [->|Hne].
    + rewrite lookup_insert_eq in Hp. injection Hp as Hp. lia.
    + rewrite lookup_insert_ne in Hp by done. apply Hout. by exists p.
  - split; [by rewrite Hheap|].
    intros [p Hp]. rewrite Hreg in Hp.
    apply lookup_delete_Some in Hp as [_ Hp]. apply Hout. by exists p.
Qed.

Lemma exec_keeps_out cf ls cf' ms :
  exec cf ls cf' ->
  ms < length (heap cf.1) -> ¬ inRegistry cf.1 ms ->
  ms < length (heap cf'.1) ∧ ¬ inRegistry cf'.1 ms.
Proof.
  induction 1 as [|[w gs] l [w' gs'] ls cf'' Hstep _ IH]; [done|].
  simpl. intros Hlt Hout.
  destruct (lstep_keeps_out _ _ _ _ _ _ Hstep Hlt Hout). by apply IH.
Qed.

(** A peer without an entry has none until [peerSender] runs for it. *)
Lemma exec_keeps_absent cf ls cf' p :
  exec cf ls cf' ->
  (∀ (g : nat) (ms : ptr), LPeerSender g p ms ∉ ls) ->
  registry cf.1 !! p = None -> registry cf'.1 !! p = None.
Proof.
  induction 1 as [|[w gs] l [w' gs'] ls cf'' Hstep _ IH]; [done|].
  simpl. intros Hls Hnone. apply IH.
  { intros g ms Hin. apply (Hls g ms). apply elem_of_cons. by right. }
  simpl.
  destruct (lstep_registry _ _ _ _ _ Hstep)
    as [(Hreg & _)|[(g & q & Hl & Hq & Hreg & _)|(q & Hreg & _)]]; rewrite Hreg.
  - done.
  - destruct (decide (q = p)) as [->|Hne].
    + exfalso. apply (Hls g (length (heap w))). subst l. apply elem_of_cons. by left.
    + by rewrite lookup_insert_ne.
  - apply lookup_delete_None. by right.
Qed.

(** C3: a sender that a transition removed from the registry of a reachable
    configuration is no entry of the registry in any later configuration;
    and the first [peerSender] that runs for its peer after the removal
    allocates a new address, other than that of the removed sender, puts
    there a sender without a stream handle, and files it under the peer. *)
Theorem evicted_sender_never_reinserted
    (w1 : World) (gs1 : list goroutine) (l : label)
    (w2 : World) (gs2 : list goroutine) (p : PeerID) (ms : ptr) :
  reachable (w1, gs1) ->
  lstep (w1, gs1) l (w2, gs2) ->
  registry w1 !! p = Some ms ->
  ¬ inRegistry w2 ms ->
  (∀ (ls : list label) (w3 : World) (gs3 : list goroutine),
     exec (w2, gs2) ls (w3, gs3) → ¬ inRegistry w3 ms) ∧
  (∀ (ls : list label) (w3 : World) (gs3 : list goroutine)
     (g : nat) (ms' : ptr) (w4 : World) (gs4 : list goroutine),
     exec (w2, gs2) ls (w3, gs3) →
     (∀ (g' : nat) (ms'' : ptr), LPeerSender g' p ms'' ∉ ls) →
     lstep (w3, gs3) (LPeerSender g p ms') (w4, gs4) →
     ms' ≠ ms ∧
     heap w3 !! ms' = None ∧
     heap w4 !! ms' = Some (unpreparedSender p) ∧
     stream (unpreparedSender p) = None ∧
     registry w4 !! p = Some ms').
Proof.
  intros Hreach Hstep Hp Hout.
  pose proof (reachable_registryOK _ _ Hreach) as HOK.
  assert (Hlt1 : ms < length (heap w1)).
  { destruct (HOK p ms Hp) as (o & Ho & _). by eapply lookup_lt_Some. }
  assert (Hlt2 : ms < length (heap w2)).
  { destruct (lstep_registry _ _ _ _ _ Hstep)
      as [(_ & Hlen & _)|[(g & q & _ & _ & _ & Hheap)|(q & _ & Hheap)]].
    - lia.
    - rewrite Hheap, length_app. lia.
    - by rewrite Hheap. }
  assert (Hnone2 : registry w2 !! p = None).
  { destruct (lstep_no_overwrite _ _ _ _ _ _ _ Hstep Hp) as [Hsame|Hnone]; [|done].
    exfalso. apply Hout. by exists p. }
  split.
  - intros ls w3 gs3 Hexec.
    apply (exec_keeps_out _ _ _ ms Hexec); done.
  - intros ls w3 gs3 g ms' w4 gs4 Hexec Hls Hlookup.
    pose proof (exec_keeps_out _ _ _ ms Hexec Hlt2 Hout) as [Hlt3 _].
    pose proof (exec_keeps_absent _ _ _ p Hexec Hls Hnone2) as Hnone3.
    simpl in Hlt3, Hnone3.
    inversion Hlookup; subst.
    match goal with H : peerSender _ _ = _ |- _ => rename H into Hps end.
    rewrite (peerSender_missing _ _ Hnone3) in Hps. injection Hps as <- <-.
    split; [lia|]. split; [apply lookup_ge_None; lia|].
    split; [simpl; rewrite lookup_app_r by lia; by rewrite Nat.sub_diag|].
    split; [reflexivity|].
    rewrite registry_setPeerSenders. apply lookup_insert_eq.
Qed.

(** *** An execution with an eviction *)

Lemma senderStep_refl ms w : senderStep ms w w.
Proof.
  unfold senderStep. split; [done|]. split; [done|]. split; [done|].
  intros o' Ho'. by exists o'.
Qed.

Lemma exec_snoc cf ls cf' l cf'' :
  exec cf ls cf' -> lstep cf' l cf'' -> exec cf (ls ++ [l]) cf''.
Proof.
  induction 1 as [|cf0 l0 cf1 ls0 cf2 Hstep _ IH]; intros Hl; simpl.
  - eapply exec_cons; [exact Hl|apply exec_nil].
  - eapply exec_cons; [exact Hstep|by apply IH].
Qed.

Lemma reachable_step cf l cf' : reachable cf -> lstep cf l cf' -> reachable cf'.
Proof.
  intros (ctx0 & h & protoID & options & c & ls & Hnew & Hexec) Hstep.
  exists ctx0, h, protoID, options, c, (ls ++ [l]).
  split; [done|]. by eapply exec_snoc.
Qed.

Lemma reachable_cfShared : reachable cfShared.
Proof.
  exists background, hostV1, "v1"%string, [], exampleClient,
    [LCall "P"; LCall "P"; LPeerSender 0 "P" 0; LPeerSender 1 "P" 0].
  split; [reflexivity|].
  eapply exec_cons; [apply go_call|].
  eapply exec_cons; [apply go_call|].
  eapply exec_cons; [eapply (go_peerSender _ _ 0 "P"); reflexivity|].
  eapply exec_cons; [eapply (go_peerSender _ _ 1 "P"); reflexivity|].
  apply exec_nil.
Qed.

Lemma lstep_cfShared_cfFailed :
  lstep cfShared (LPrepared 0 0 (Some (ErrMsg "dial failed"))) cfFailed.
Proof.
  exact (go_prepared_err worldP [Preparing "P" 0; Preparing "P" 0] 0 "P" 0
           (ErrMsg "dial failed") worldP eq_refl (senderStep_refl 0 worldP)).
Qed.

Lemma lstep_cfFailed_cfEvicted :
  lstep cfFailed (LReplaceOrEvict 0 "P" 0) cfEvicted.
Proof.
  exact (go_replaceOrEvict worldP cfFailed.2 0 "P" 0 (ErrMsg "dial failed")
           (None, Some (ErrMsg "dial failed")) cfEvicted.1 eq_refl eq_refl).
Qed.

Lemma lstep_cfEvicted_cfRetry : lstep cfEvicted (LCall "P") cfRetry.
Proof. exact (go_call cfEvicted.1 cfEvicted.2 "P"). Qed.

Lemma lstep_cfRetry_cfFresh : lstep cfRetry (LPeerSender 2 "P" 1) cfFresh.
Proof.
  exact (go_peerSender cfRetry.1 cfRetry.2 2 "P" 1 cfFresh.1 eq_refl eq_refl).
Qed.

Lemma registry_cfEvicted : registry cfEvicted.1 = ∅.
Proof.
  unfold cfEvicted, worldP. simpl. rewrite registry_setPeerSenders.
  rewrite (peerSender_missing "P" exampleWorld) by reflexivity.
  simpl. rewrite registry_setPeerSenders, delete_insert_eq.
  exact (delete_empty "P"%string).
Qed.

Lemma registry_uniqueness_witness :
  peerSender "P" worldP = (0, worldP) ∧
  (∀ ms : ptr, senderOf worldP "P" ms → ms = 0).
Proof.
  destruct (registry_uniqueness worldP [Preparing "P" 0; Preparing "P" 0]
              reachable_cfShared) as (_ & Hentry & Hfound & _).
  split.
  - apply Hfound. vm_compute. reflexivity.
  - intros ms Hms. symmetry. apply (Hentry "P"%string 0 ms); [|exact Hms].
    vm_compute. reflexivity.
Defined.

Lemma evicted_sender_never_reinserted_witness :
  ¬ inRegistry cfFresh.1 0 ∧
  heap cfFresh.1 !! 1 = Some (unpreparedSender "P") ∧
  registry cfFresh.1 !! "P"%string = Some 1.
Proof.
  assert (Hout : ¬ inRegistry cfEvicted.1 0).
  { intros [q Hq]. rewrite registry_cfEvicted in Hq. by rewrite lookup_empty in Hq. }
  destruct (evicted_sender_never_reinserted worldP cfFailed.2
              (LReplaceOrEvict 0 "P" 0) cfEvicted.1 cfEvicted.2 "P" 0)
    as [Hnever Hnext].
  - apply (reachable_step _ _ _ reachable_cfShared lstep_cfShared_cfFailed).
  - exact lstep_cfFailed_cfEvicted.
  - vm_compute. reflexivity.
  - exact Hout.
  - split.
    + apply (Hnever [LCall "P"; LPeerSender 2 "P" 1] cfFresh.1 cfFresh.2).
      eapply exec_cons; [exact lstep_cfEvicted_cfRetry|].
      eapply exec_cons; [exact lstep_cfRetry_cfFresh|apply exec_nil].
    + destruct (Hnext [LCall "P"] cfRetry.1 cfRetry.2 2 1 cfFresh.1 cfFresh.2)
        as (_ & _ & Hheap & _ & Hreg).
      * eapply exec_cons; [exact lstep_cfEvicted_cfRetry|apply exec_nil].
      * intros g' ms'' Hin. apply elem_of_cons in Hin as [Hin|Hin];
          [discriminate|by apply elem_of_nil in Hin].
      * exact lstep_cfRetry_cfFresh.
      * split; [exact Hheap|exact Hreg].
Defined.

(** ** Negotiation *)






(** ** The read timeout *)

Lemma readMessageTimeout_value : readMessageTimeout = 10000000000%Z.
Proof. reflexivity. Qed.

(** C5: a [sendRequest] whose write succeeds and to which no response
    arrives before the end of the read window fails with [ErrReadTimeout],
    which is none of the other errors; it returns ten seconds after the
    start of the read, whatever the caller's context is; and it leaves the
    sender without a stream handle and marked invalid, so that a later
    [prepOrInvalidate] of that sender fails and opens nothing. *)
Theorem read_timeout_after_ten_seconds
    (ms : ptr) (msg : Message) (decodeRsp : DecodeResponseFunc) (h : Host)
    (protos : list ProtocolID) (w : World) (o : peerMessageSender)
    (st : Stream) :
  heap w !! ms = Some o ->
  stream o = Some st ->
  streamWrite h st msg (clock w) = None ->
  (∀ (d : N) (r : error + list byte),
     streamResponse h st (clock w) = Some (d, r) →
     (readMessageTimeout <= Z.of_N d)%Z) ->
  ∃ w' : World,
    (∀ ctx0 : Context,
       Sender.sendRequest ms ctx0 msg decodeRsp h protos w =
         (Some ErrReadTimeout, w')) ∧
    ErrReadTimeout ≠ ErrCanceled ∧
    (∀ s : string, ErrReadTimeout ≠ ErrMsg s) ∧
    clock w' = (clock w + 10 * 1000000000)%Z ∧
    heap w' !! ms =
      Some {| peerID := peerID o; ctxLock := {| held := false |};
              stream := None; invalid := true |} ∧
    registry w' = registry w ∧
    netlog w' = netlog w ++ [EvWrite st msg None; EvRead st] ∧
    (∀ (ctx1 : Context) (h1 : Host) (protos1 : list ProtocolID),
       ∃ (err : error) (w'' : World),
         Sender.prepOrInvalidate ms ctx1 h1 protos1 w' = (Some err, w'') ∧
         opened w'' = opened w ∧ netlog w'' = netlog w' ∧
         stream <$> heap w'' !! ms = Some None).
Proof.
  intros Hms Hstream Hwrite Hsilent.
  assert (Hlt : ms < length (heap w)) by by eapply lookup_lt_Some.
  exists (Sender.setClock (clock w + readMessageTimeout)
            (Sender.setSender ms (Sender.invalidated o)
               (Sender.logIO [EvWrite st msg None; EvRead st] w))).
  split; [|split; [|split; [|split; [|split; [|split; [|split]]]]]].
  - intros ctx0. unfold Sender.sendRequest. rewrite Hms, Hstream, Hwrite.
    destruct (streamResponse h st (clock w)) as [[d r]|] eqn:Er; [|reflexivity].
    pose proof (Hsilent d r eq_refl) as Hd.
    destruct (Z.ltb_spec (Z.of_N d) readMessageTimeout) as [Hlate|_]; [lia|].
    reflexivity.
  - discriminate.
  - discriminate.
  - reflexivity.
  - simpl. by apply list_lookup_insert_eq.
  - reflexivity.
  - reflexivity.
  - intros ctx1 h1 protos1.
    unfold Sender.prepOrInvalidate. simpl.
    rewrite list_lookup_insert_eq by done. simpl.
    eexists. eexists. split; [reflexivity|]. simpl.
    split; [reflexivity|]. split; [reflexivity|].
    rewrite list_lookup_insert_eq; [done|]. by rewrite length_insert.
Qed.

Lemma read_timeout_after_ten_seconds_witness :
  ∃ w' : World,
    Sender.sendRequest 0 background [x01] (fun _ => None) hostSilent
      ["v1"%string]
      (snd (Sender.prepOrInvalidate 0 background hostSilent ["v1"%string] worldP)) =
      (Some ErrReadTimeout, w') ∧
    clock w' = 10000000000%Z ∧
    stream <$> heap w' !! 0 = Some None.
Proof.
  destruct (read_timeout_after_ten_seconds 0 [x01] (fun _ => None) hostSilent
              ["v1"%string]
              (snd (Sender.prepOrInvalidate 0 background hostSilent
                      ["v1"%string] worldP))
              {| peerID := "P"; ctxLock := {| held := true |};
                 stream := Some {| streamID := 0; streamPeer := "P";
                                   streamProto := "v1" |};
                 invalid := false |}
              {| streamID := 0; streamPeer := "P"; streamProto := "v1" |})
    as (w' & Hsend & _ & _ & Hclock & Hheap & _).
  - vm_compute. reflexivity.
  - reflexivity.
  - reflexivity.
  - intros d r Hr. vm_compute in Hr. discriminate.
  - exists w'. split; [apply Hsend|]. split; [exact Hclock|].
    rewrite Hheap. reflexivity.
Defined.

(** ** Decode failures *)

Lemma peerSender_entry p w ms w' :
  registryOK w -> peerSender p w = (ms, w') ->
  registry w' !! p = Some ms ∧
  ∃ o : peerMessageSender, heap w' !! ms = Some o ∧ peerID o = p.
Proof.
  intros HOK Hps. destruct (registry w !! p) as [ms0|] eqn:E.
  - rewrite (peerSender_found _ _ _ E) in Hps. injection Hps as <- <-.
    split; [done|]. by apply HOK.
  - rewrite (peerSender_missing _ _ E) in Hps. injection Hps as <- <-.
    split; [rewrite registry_setPeerSenders; apply lookup_insert_eq|].
    exists (unpreparedSender p). split; [|done].
    simpl. rewrite lookup_app_r by lia. by rewrite Nat.sub_diag.
Qed.

Lemma prepOrInvalidate_client ms ctx0 h protos w res w' :
  Sender.prepOrInvalidate ms ctx0 h protos w = (res, w') ->
  client w' = client w.
Proof.
  unfold Sender.prepOrInvalidate, Sender.Lock. intros H.
  repeat case_match; simplify_eq; reflexivity.
Qed.

Lemma prepOrInvalidate_success ms ctx0 h protos w o w' :
  heap w !! ms = Some o ->
  Sender.prepOrInvalidate ms ctx0 h protos w = (None, w') ->
  ∃ st : Stream,
    heap w' !! ms =
      Some {| peerID := peerID o; ctxLock := {| held := true |};
              stream := Some st; invalid := false |}.
Proof.
  intros Hms. assert (Hlt : ms < length (heap w)) by by eapply lookup_lt_Some.
  unfold Sender.prepOrInvalidate, Sender.Lock. rewrite Hms. intros H.
  repeat case_match; simplify_eq; eexists; simpl;
    by apply list_lookup_insert_eq.
Qed.

Lemma prepOrInvalidate_ready ms ctx0 h protos w o st :
  heap w !! ms = Some o ->
  held (ctxLock o) = false -> invalid o = false -> stream o = Some st ->
  liveness h st (clock w) = None ->
  Sender.prepOrInvalidate ms ctx0 h protos w =
    (None,
     Sender.setSender ms {| peerID := peerID o; ctxLock := {| held := true |};
                            stream := Some st; invalid := false |} w).
Proof.
  intros Hms Hfree Hvalid Hstream Hlive.
  unfold Sender.prepOrInvalidate, Sender.Lock.
  by rewrite Hms, Hfree, Hvalid, Hstream, Hlive.
Qed.

(** A resolution that succeeds when no other goroutine runs returns the
    entry of the peer, prepared by this call. *)
Lemma resolve_success ctx0 p w ms w' :
  registryOK w ->
  Sender.resolve ctx0 p w = ((Some ms, None), w') ->
  registry w' !! p = Some ms ∧
  calls w' = calls w ++ [CallPrepOrInvalidate ms None] ∧
  ∃ st : Stream,
    heap w' !! ms =
      Some {| peerID := p; ctxLock := {| held := true |};
              stream := Some st; invalid := false |}.
Proof.
  intros HOK. unfold Sender.resolve, messageSenderForPeer.
  destruct (peerSender p w) as [ms0 w1] eqn:Eps.
  destruct (peerSender_entry _ _ _ _ HOK Eps) as (Hreg & o1 & Ho1 & Hp1).
  pose proof (peerSender_calls _ _ _ _ Eps) as Hcalls.
  unfold callPrepOrInvalidate.
  destruct (Sender.prepOrInvalidate ms0 ctx0 (host (client w1))
              (protocols (client w1)) w1) as [res w2] eqn:Eprep.
  pose proof (prepOrInvalidate_client _ _ _ _ _ _ _ Eprep) as Hclient.
  destruct res as [err|].
  - rewrite replaceOrEvict_same; [discriminate|].
    unfold registry. simpl. rewrite Hclient. exact Hreg.
  - intros [= <- <-]. split.
    { unfold registry. simpl. rewrite Hclient. exact Hreg. }
    split; [simpl; by rewrite Hcalls|].
    destruct (prepOrInvalidate_success _ _ _ _ _ _ _ Ho1 Eprep) as [st Hst].
    exists st. simpl. by rewrite Hst, Hp1.
Qed.

Lemma sendRequest_writes ms ctx0 msg decodeRsp h protos w o st :
  heap w !! ms = Some o -> stream o = Some st ->
  ∃ (res : option error) (w' : World) (rest : list IOEvent),
    Sender.sendRequest ms ctx0 msg decodeRsp h protos w = (res, w') ∧
    opened w' = opened w ∧
    netlog w' =
      netlog w ++ EvWrite st msg (streamWrite h st msg (clock w)) :: rest.
Proof.
  intros Hms Hstream. unfold Sender.sendRequest. rewrite Hms, Hstream.
  destruct (streamWrite h st msg (clock w)) as [err|] eqn:Ew.
  - do 3 eexists. split; [reflexivity|]. split; reflexivity.
  - destruct (streamResponse h st (clock w)) as [[d [err|bytes]]|];
      try destruct (Z.of_N d <? readMessageTimeout)%Z;
      do 3 eexists; (split; [reflexivity|]); split; reflexivity.
Qed.

(** C6: when a [SendRequest] resolved the sender of the peer, wrote the
    request and read the response, and the caller's decoder rejected the
    bytes with [e], the call returns [e] itself; the registry still holds
    the same sender, with the same stream handle and not marked invalid;
    and, the stream still passing the liveness check, the [SendRequest]
    that follows for the same peer opens no stream and writes its request
    on that same handle. *)
Theorem decode_failure_keeps_stream
    (ctx1 ctx2 : Context) (p : PeerID) (msg1 msg2 : Message)
    (dec1 dec2 : DecodeResponseFunc) (w w' : World) (ms : ptr)
    (o : peerMessageSender) (st : Stream) (d : N) (bytes : list byte)
    (e : error) :
  registryOK w ->
  Sender.resolve ctx1 p w = ((Some ms, None), w') ->
  heap w' !! ms = Some o ->
  stream o = Some st ->
  streamWrite (host (client w')) st msg1 (clock w') = None ->
  streamResponse (host (client w')) st (clock w') = Some (d, inr bytes) ->
  (Z.of_N d < readMessageTimeout)%Z ->
  dec1 bytes = Some e ->
  liveness (host (client w')) st (clock w' + Z.of_N d) = None ->
  ∃ (w1 : World) (res2 : option error) (w2 : World) (rest : list IOEvent),
    Sender.request ctx1 p msg1 dec1 w = (Return (Some e), w1) ∧
    client w1 = client w' ∧
    registry w1 !! p = Some ms ∧
    heap w1 !! ms =
      Some {| peerID := p; ctxLock := {| held := false |};
              stream := Some st; invalid := false |} ∧
    opened w1 = opened w' ∧
    netlog w1 = netlog w' ++ [EvWrite st msg1 None; EvRead st] ∧
    Sender.request ctx2 p msg2 dec2 w1 = (Return res2, w2) ∧
    opened w2 = opened w1 ∧
    netlog w2 =
      netlog w1 ++
      EvWrite st msg2 (streamWrite (host (client w1)) st msg2 (clock w1)) :: rest ∧
    calls w2 =
      calls w ++ [CallPrepOrInvalidate ms None; CallSendRequest ms;
                  CallPrepOrInvalidate ms None; CallSendRequest ms].
Proof.
  intros HOK Hres Hms Hstream Hwrite Hresp Hd Hdec Hlive.
  destruct (resolve_success _ _ _ _ _ HOK Hres) as (Hreg & Hcalls & st0 & Hst0).
  assert (o = {| peerID := p; ctxLock := {| held := true |};
                 stream := Some st0; invalid := false |}) as -> by congruence.
  simpl in Hstream. injection Hstream as ->.
  assert (Hlt : ms < length (heap w')) by by eapply lookup_lt_Some.
  (* the first call *)
  set (o1 := {| peerID := p; ctxLock := {| held := false |};
                stream := Some st; invalid := false |}).
  set (w1 := setCalls (calls w' ++ [CallSendRequest ms])
               (Sender.setClock (clock w' + Z.of_N d)
                  (Sender.setSender ms o1
                     (Sender.logIO [EvWrite st msg1 None; EvRead st] w')))).
  assert (Hfirst : Sender.request ctx1 p msg1 dec1 w = (Return (Some e), w1)).
  { unfold Sender.request, SendRequest. fold Sender.resolve. rewrite Hres.
    unfold Sender.sendRequest. rewrite Hst0. simpl. rewrite Hwrite, Hresp.
    destruct (Z.ltb_spec (Z.of_N d) readMessageTimeout) as [_|Hge]; [|lia].
    rewrite Hdec. reflexivity. }
  assert (Hms1 : heap w1 !! ms = Some o1).
  { simpl. by apply list_lookup_insert_eq. }
  assert (Hreg1 : registry w1 !! p = Some ms) by exact Hreg.
  (* the second call *)
  set (o2 := {| peerID := p; ctxLock := {| held := true |};
                stream := Some st; invalid := false |}).
  set (w1' := setCalls (calls w1 ++ [CallPrepOrInvalidate ms None])
                (Sender.setSender ms o2 w1)).
  assert (Hres2 : Sender.resolve ctx2 p w1 = ((Some ms, None), w1')).
  { unfold Sender.resolve, messageSenderForPeer.
    rewrite (peerSender_found _ _ _ Hreg1). unfold callPrepOrInvalidate.
    rewrite (prepOrInvalidate_ready ms ctx2 _ _ w1 o1 st Hms1 eq_refl eq_refl
               eq_refl Hlive).
    reflexivity. }
  assert (Hms1' : heap w1' !! ms = Some o2).
  { simpl. rewrite list_lookup_insert_eq; [done|]. by rewrite length_insert. }
  destruct (sendRequest_writes ms ctx2 msg2 dec2 (host (client w1'))
              (protocols (client w1')) w1' o2 st Hms1' eq_refl)
    as (res2 & w2 & rest & Hsend & Hopened & Hlog).
  exists w1, res2, (setCalls (calls w1' ++ [CallSendRequest ms]) w2), rest.
  split; [exact Hfirst|]. split; [reflexivity|]. split; [exact Hreg1|].
  split; [exact Hms1|]. split; [reflexivity|]. split; [reflexivity|].
  split.
  { unfold Sender.request, SendRequest. fold Sender.resolve. rewrite Hres2.
    rewrite Hsend. reflexivity. }
  split; [exact Hopened|]. split; [exact Hlog|].
  simpl. rewrite Hcalls. rewrite <- !app_assoc. reflexivity.
Qed.

Lemma registryOK_exampleWorld : registryOK exampleWorld.
Proof.
  intros p ms Hp. change (registry exampleWorld) with (∅ : gmap string nat) in Hp.
  by rewrite lookup_empty in Hp.
Qed.

Lemma decode_failure_keeps_stream_witness :
  ∃ (w1 : World) (res2 : option error) (w2 : World),
    Sender.request background "P" [x02] rejectAll exampleWorld =
      (Return (Some (ErrMsg "bad response")), w1) ∧
    heap w1 !! 0 =
      Some {| peerID := "P"; ctxLock := {| held := false |};
              stream := Some {| streamID := 0; streamPeer := "P";
                                streamProto := "v1" |};
              invalid := false |} ∧
    Sender.request background "P" [x03] acceptAll w1 = (Return res2, w2) ∧
    opened w2 = opened w1 ∧
    calls w2 =
      [CallPrepOrInvalidate 0 None; CallSendRequest 0;
       CallPrepOrInvalidate 0 None; CallSendRequest 0].
Proof.
  destruct (decode_failure_keeps_stream background background "P" [x02] [x03]
              rejectAll acceptAll exampleWorld
              (snd (Sender.resolve background "P" exampleWorld)) 0
              {| peerID := "P"; ctxLock := {| held := true |};
                 stream := Some {| streamID := 0; streamPeer := "P";
                                   streamProto := "v1" |};
                 invalid := false |}
              {| streamID := 0; streamPeer := "P"; streamProto := "v1" |}
              1000000000%N [x01] (ErrMsg "bad response"))
    as (w1 & res2 & w2 & rest & Hfirst & _ & _ & Hheap & _ & _ & Hsecond
        & Hopened & _ & Hcalls).
  - exact registryOK_exampleWorld.
  - vm_compute. reflexivity.
  - vm_compute. reflexivity.
  - reflexivity.
  - reflexivity.
  - reflexivity.
  - vm_compute. reflexivity.
  - reflexivity.
  - reflexivity.
  - exists w1, res2, w2.
    split; [exact Hfirst|]. split; [exact Hheap|]. split; [exact Hsecond|].
    split; [exact Hopened|exact Hcalls].
Defined.

(** *** The changed-entry path among goroutines *)

Lemma lstep_cfFresh_cfLate :
  lstep cfFresh (LPrepared 1 0 (Some (ErrMsg "dial failed"))) cfLate.
Proof.
  exact (go_prepared_err cfFresh.1 cfFresh.2 1 "P" 0 (ErrMsg "dial failed")
           cfFresh.1 eq_refl (senderStep_refl 0 cfFresh.1)).
Qed.

Lemma lstep_cfLate_cfOvertaken :
  lstep cfLate (LReplaceOrEvict 1 "P" 0) cfOvertaken.
Proof.
  exact (go_replaceOrEvict cfLate.1 cfLate.2 1 "P" 0 (ErrMsg "dial failed")
           (Some 1, None) cfOvertaken.1 eq_refl eq_refl).
Qed.

(** Three calls for one peer reach the changed-entry path: the second
    goroutine ends up sending on the sender [1], which the third one made
    and is still preparing, while its own sender was [0]. *)
Example changed_entry_reachable :
  reachable cfOvertaken ∧
  cfOvertaken.2 !! 1 = Some (Sending "P" 1) ∧
  cfOvertaken.2 !! 2 = Some (Preparing "P" 1) ∧
  stream <$> heap cfOvertaken.1 !! 1 = Some None.
Proof.
  split; [|by vm_compute].
  eapply reachable_step; [|exact lstep_cfLate_cfOvertaken].
  eapply reachable_step; [|exact lstep_cfFresh_cfLate].
  eapply reachable_step; [|exact lstep_cfRetry_cfFresh].
  eapply reachable_step; [|exact lstep_cfEvicted_cfRetry].
  eapply reachable_step; [|exact lstep_cfFailed_cfEvicted].
  eapply reachable_step; [|exact lstep_cfShared_cfFailed].
  exact reachable_cfShared.
Qed.

(** ** Further properties of the client's operations *)

(** *** Results of a resolution *)

Lemma replaceOrEvict_cases p ms err w :
  (∃ msCur : ptr, registry w !! p = Some msCur ∧ msCur ≠ ms ∧
     replaceOrEvict p ms err w = ((Some msCur, None), w)) ∨
  (∃ w' : World, replaceOrEvict p ms err w = ((None, Some err), w') ∧
     calls w' = calls w ∧ heap w' = heap w ∧
     ((registry w !! p = Some ms ∧ registry w' = delete p (registry w)) ∨
      (registry w !! p = None ∧ w' = w))).
Proof.
  unfold replaceOrEvict. destruct (registry w !! p) as [msCur|] eqn:E.
  - destruct (decide (ms ≠ msCur)) as [Hne|Heq].
    + left. exists msCur. split; [done|]. split; [congruence|done].
    + right. eexists. split; [reflexivity|]. split; [done|]. split; [done|].
      left. split; [|done]. f_equal. destruct (decide (ms = msCur)); [done|].
      by destruct Heq.
  - right. exists w. split; [done|]. split; [done|]. split; [done|].
    by right.
Qed.

Lemma messageSenderForPeer_cases prep ctx0 p w :
  (∃ (ms : ptr) (w' : World),
     messageSenderForPeer prep ctx0 p w = ((Some ms, None), w')) ∨
  (∃ (e : error) (w' : World),
     messageSenderForPeer prep ctx0 p w = ((None, Some e), w')).
Proof.
  unfold messageSenderForPeer.
  destruct (peerSender p w) as [ms w1].
  destruct (callPrepOrInvalidate prep ms ctx0 w1) as [[e|] w2].
  - destruct (replaceOrEvict_cases p ms e w2)
      as [(msCur & _ & _ & ->)|(w' & -> & _)]; [left|right]; eauto.
  - left. eauto.
Qed.

(** X1: [messageSenderForPeer] returns a sender with a nil error or a nil
    sender with an error, never two nils and never a sender with an error;
    hence [SendRequest] and [SendMessage] never call a method on a nil
    sender, whatever the sender's methods and the other goroutines do. *)
Theorem no_nil_sender
    (prep : ptr -> Context -> Host -> list ProtocolID -> World -> option error * World)
    (sendReq : ptr -> Context -> Message -> DecodeResponseFunc -> Host ->
               list ProtocolID -> World -> option error * World)
    (sendMsg : ptr -> Context -> Message -> Host -> list ProtocolID ->
               World -> option error * World)
    (ctx0 : Context) (p : PeerID) (msg : Message)
    (decodeRsp : DecodeResponseFunc) (w : World) :
  ((∃ ms : ptr, (messageSenderForPeer prep ctx0 p w).1 = (Some ms, None)) ∨
   (∃ e : error, (messageSenderForPeer prep ctx0 p w).1 = (None, Some e))) ∧
  (SendRequest prep sendReq ctx0 p msg decodeRsp w).1 ≠ NilSender ∧
  (SendMessage prep sendMsg ctx0 p msg w).1 ≠ NilSender.
Proof.
  unfold SendRequest, SendMessage.
  destruct (messageSenderForPeer_cases prep ctx0 p w)
    as [(ms & w' & ->)|(e & w' & ->)]; simpl.
  - split; [left; eauto|]. split.
    + by destruct (sendReq ms ctx0 msg decodeRsp (host (client w'))
                     (protocols (client w')) w').
    + by destruct (sendMsg ms ctx0 msg (host (client w'))
                     (protocols (client w')) w') as [[?|] ?].
  - split; [right; eauto|]. split; discriminate.
Qed.

(** X2: every [SendRequest] and every [SendMessage] calls
    [prepOrInvalidate] exactly once, on the sender that [peerSender] gave,
    and after it the send at most once: on that sender when the preparation
    succeeded; not at all, or on another sender, when it failed. *)
Theorem one_preparation_per_call
    (prep : ptr -> Context -> Host -> list ProtocolID -> World -> option error * World)
    (sendReq : ptr -> Context -> Message -> DecodeResponseFunc -> Host ->
               list ProtocolID -> World -> option error * World)
    (sendMsg : ptr -> Context -> Message -> Host -> list ProtocolID ->
               World -> option error * World)
    (ctx0 : Context) (p : PeerID) (msg : Message)
    (decodeRsp : DecodeResponseFunc) (w : World) :
  ∃ (ms : ptr) (r : option error),
    ms = (peerSender p w).1 ∧
    r = (callPrepOrInvalidate prep ms ctx0 (peerSender p w).2).1 ∧
    match r with
    | None =>
        calls (SendRequest prep sendReq ctx0 p msg decodeRsp w).2 =
          calls w ++ [CallPrepOrInvalidate ms None; CallSendRequest ms] ∧
        calls (SendMessage prep sendMsg ctx0 p msg w).2 =
          calls w ++ [CallPrepOrInvalidate ms None; CallSendMessage ms]
    | Some e =>
        (calls (SendRequest prep sendReq ctx0 p msg decodeRsp w).2 =
           calls w ++ [CallPrepOrInvalidate ms (Some e)] ∧
         calls (SendMessage prep sendMsg ctx0 p msg w).2 =
           calls w ++ [CallPrepOrInvalidate ms (Some e)]) ∨
        (∃ msCur : ptr, msCur ≠ ms ∧
           calls (SendRequest prep sendReq ctx0 p msg decodeRsp w).2 =
             calls w ++ [CallPrepOrInvalidate ms (Some e); CallSendRequest msCur] ∧
           calls (SendMessage prep sendMsg ctx0 p msg w).2 =
             calls w ++ [CallPrepOrInvalidate ms (Some e); CallSendMessage msCur])
    end.
Proof.
  destruct (peerSender p w) as [ms w1] eqn:Eps. simpl.
  destruct (callPrepOrInvalidate prep ms ctx0 w1) as [r w2] eqn:Eprep.
  exists ms, r. simpl. split; [done|]. split; [by rewrite Eprep|].
  assert (Hcalls : calls w2 = calls w ++ [CallPrepOrInvalidate ms r]).
  { rewrite (callPrepOrInvalidate_calls _ _ _ _ _ _ Eprep).
    by rewrite (peerSender_calls _ _ _ _ Eps). }
  unfold SendRequest, SendMessage, messageSenderForPeer. rewrite Eps, Eprep.
  destruct r as [e|].
  - destruct (replaceOrEvict_cases p ms e w2)
      as [(msCur & _ & Hne & ->)|(w' & -> & Hc & _)].
    + right. exists msCur. split; [done|].
      destruct (sendReq msCur ctx0 msg decodeRsp (host (client w2))
                  (protocols (client w2)) w2) as [res w3].
      destruct (sendMsg msCur ctx0 msg (host (client w2))
                  (protocols (client w2)) w2) as [[?|] w4];
        simpl; rewrite Hcalls, <- !app_assoc; split; reflexivity.
    + left. simpl. rewrite Hc, Hcalls. done.
  - destruct (sendReq ms ctx0 msg decodeRsp (host (client w2))
                (protocols (client w2)) w2) as [res w3].
    destruct (sendMsg ms ctx0 msg (host (client w2))
                (protocols (client w2)) w2) as [[?|] w4];
      simpl; rewrite Hcalls, <- !app_assoc; split; reflexivity.
Qed.

(** *** Lookups *)

(** X3: a second [peerSender] for the same peer returns the sender of the
    first and changes nothing: it allocates no sender and files none. *)
Theorem peerSender_idempotent (p : PeerID) (w : World) :
  peerSender p (peerSender p w).2 = ((peerSender p w).1, (peerSender p w).2).
Proof.
  destruct (registry w !! p) as [ms|] eqn:E.
  - rewrite (peerSender_found _ _ _ E). simpl. by apply peerSender_found.
  - rewrite (peerSender_missing _ _ E). simpl. apply peerSender_found.
    rewrite registry_setPeerSenders. apply lookup_insert_eq.
Qed.

Lemma senderStep_registryOK ms w w' :
  senderStep ms w w' -> registryOK w -> registryOK w'.
Proof.
  intros (Hc & Hlen & Hother & Hown) HOK p a Hp.
  unfold registry in Hp. rewrite Hc in Hp.
  destruct (HOK p a Hp) as (o & Ho & Hpeer).
  destruct (decide (a = ms)) as [->|Hne].
  - destruct (lookup_lt_is_Some_2 (heap w') ms) as [o' Ho'].
    { rewrite Hlen. by eapply lookup_lt_Some. }
    exists o'. split; [done|].
    destruct (Hown o' Ho') as (o0 & Ho0 & Hp0). congruence.
  - exists o. by rewrite Hother.
Qed.

Lemma peerSender_registryOK p w ms w' :
  peerSender p w = (ms, w') -> registryOK w -> registryOK w'.
Proof.
  intros Hps. apply (lstep_registryOK w [Resolving p] (LPeerSender 0 p ms) w'
                       (<[0 := Preparing p ms]> [Resolving p])).
  by apply (go_peerSender w [Resolving p] 0 p ms w').
Qed.

Lemma peerSender_others p w ms w' q :
  peerSender p w = (ms, w') -> q ≠ p -> registry w' !! q = registry w !! q.
Proof.
  intros Hps Hq. destruct (registry w !! p) as [ms0|] eqn:E.
  - rewrite (peerSender_found _ _ _ E) in Hps. by injection Hps as <- <-.
  - rewrite (peerSender_missing _ _ E) in Hps. injection Hps as <- <-.
    rewrite registry_setPeerSenders. by apply lookup_insert_ne.
Qed.

Lemma peerSender_filed p w ms w' :
  peerSender p w = (ms, w') -> registry w' !! p = Some ms.
Proof.
  intros Hps. destruct (registry w !! p) as [ms0|] eqn:E.
  - rewrite (peerSender_found _ _ _ E) in Hps. by injection Hps as <- <-.
  - rewrite (peerSender_missing _ _ E) in Hps. injection Hps as <- <-.
    rewrite registry_setPeerSenders. apply lookup_insert_eq.
Qed.

Lemma callPrepOrInvalidate_senderStep prep ms ctx0 w res w' :
  (∀ (m : ptr) (h : Host) (ps : list ProtocolID),
     touchesOnly m (prep m ctx0 h ps)) ->
  callPrepOrInvalidate prep ms ctx0 w = (res, w') ->
  senderStep ms w w'.
Proof.
  intros Hprep. unfold callPrepOrInvalidate.
  pose proof (Hprep ms (host (client w)) (protocols (client w)) w) as Hstep.
  destruct (prep ms ctx0 (host (client w)) (protocols (client w)) w) as [r v].
  intros [= <- <-]. exact Hstep.
Qed.

(** *** Resolutions without interference *)

(** X4: when [prepOrInvalidate] runs without interference,
    [messageSenderForPeer] leaves the entries of all other peers as they
    were; when it returns a sender, that sender is the one [peerSender] gave
    and it is the entry of the peer; when it returns an error, the peer has
    no entry left. *)
Theorem resolution_touches_own_entry
    (prep : ptr -> Context -> Host -> list ProtocolID -> World -> option error * World)
    (ctx0 : Context) (p : PeerID) (w : World) :
  (∀ (m : ptr) (h : Host) (ps : list ProtocolID),
     touchesOnly m (prep m ctx0 h ps)) ->
  (∀ q : PeerID, q ≠ p →
     registry (messageSenderForPeer prep ctx0 p w).2 !! q = registry w !! q) ∧
  match (messageSenderForPeer prep ctx0 p w).1 with
  | (Some ms, _) =>
      ms = (peerSender p w).1 ∧
      registry (messageSenderForPeer prep ctx0 p w).2 !! p = Some ms
  | (None, _) =>
      registry (messageSenderForPeer prep ctx0 p w).2 !! p = None
  end.
Proof.
  intros Hprep. unfold messageSenderForPeer.
  destruct (peerSender p w) as [ms w1] eqn:Eps.
  pose proof (peerSender_filed _ _ _ _ Eps) as Hfiled.
  destruct (callPrepOrInvalidate prep ms ctx0 w1) as [r w2] eqn:Eprep.
  destruct (callPrepOrInvalidate_senderStep _ _ _ _ _ _ Hprep Eprep)
    as (Hclient & _).
  assert (Hreg : registry w2 = registry w1) by (unfold registry; by rewrite Hclient).
  destruct r as [e|]; simpl.
  - rewrite replaceOrEvict_same by (by rewrite Hreg). simpl.
    rewrite registry_setPeerSenders. split.
    + intros q Hq. rewrite lookup_delete_ne by done. rewrite Hreg.
      by eapply peerSender_others.
    + apply lookup_delete_eq.
  - split.
    + intros q Hq. rewrite Hreg. by eapply peerSender_others.
    + split; [done|]. by rewrite Hreg.
Qed.

Lemma resolution_touches_own_entry_witness :
  registry (messageSenderForPeer failingPrep background "P" worldPQ).2
    !! "Q"%string = Some 1 ∧
  registry (messageSenderForPeer failingPrep background "P" worldPQ).2
    !! "P"%string = None.
Proof.
  destruct (resolution_touches_own_entry failingPrep background "P" worldPQ)
    as [Hothers Hown].
  - intros m h ps v. apply senderStep_refl.
  - split.
    + rewrite (Hothers "Q"%string) by discriminate. vm_compute. reflexivity.
    + exact Hown.
Defined.

Lemma messageSenderForPeer_registryOK prep ctx0 p w :
  (∀ (m : ptr) (h : Host) (ps : list ProtocolID),
     touchesOnly m (prep m ctx0 h ps)) ->
  registryOK w -> registryOK (messageSenderForPeer prep ctx0 p w).2.
Proof.
  intros Hprep HOK. unfold messageSenderForPeer.
  destruct (peerSender p w) as [ms w1] eqn:Eps.
  pose proof (peerSender_registryOK _ _ _ _ Eps HOK) as HOK1.
  destruct (callPrepOrInvalidate prep ms ctx0 w1) as [r w2] eqn:Eprep.
  pose proof (senderStep_registryOK _ _ _
    (callPrepOrInvalidate_senderStep _ _ _ _ _ _ Hprep Eprep) HOK1) as HOK2.
  destruct r as [e|]; [|done].
  destruct (replaceOrEvict_cases p ms e w2)
    as [(msCur & _ & _ & ->)|(w' & -> & _ & Hheap & Hcase)]; [done|].
  simpl. intros q a Hq. rewrite Hheap. apply HOK2.
  destruct Hcase as [[_ Hreg]|[_ ->]]; [|done].
  rewrite Hreg in Hq. by apply lookup_delete_Some in Hq as [_ Hq].
Qed.

(** X5: when the sender's methods run without interference, [SendRequest]
    and [SendMessage] keep the registry consistent with the heap: every
    entry stays the address of an allocated sender that holds the peer
    identity it is filed under. *)
Theorem sends_keep_registryOK
    (prep : ptr -> Context -> Host -> list ProtocolID -> World -> option error * World)
    (sendReq : ptr -> Context -> Message -> DecodeResponseFunc -> Host ->
               list ProtocolID -> World -> option error * World)
    (sendMsg : ptr -> Context -> Message -> Host -> list ProtocolID ->
               World -> option error * World)
    (ctx0 : Context) (p : PeerID) (msg : Message)
    (decodeRsp : DecodeResponseFunc) (w : World) :
  (∀ (m : ptr) (h : Host) (ps : list ProtocolID),
     touchesOnly m (prep m ctx0 h ps)) ->
  (∀ (m : ptr) (h : Host) (ps : list ProtocolID),
     touchesOnly m (sendReq m ctx0 msg decodeRsp h ps)) ->
  (∀ (m : ptr) (h : Host) (ps : list ProtocolID),
     touchesOnly m (sendMsg m ctx0 msg h ps)) ->
  registryOK w ->
  registryOK (SendRequest prep sendReq ctx0 p msg decodeRsp w).2 ∧
  registryOK (SendMessage prep sendMsg ctx0 p msg w).2.
Proof.
  intros Hprep Hreq Hmsg HOK.
  pose proof (messageSenderForPeer_registryOK prep ctx0 p w Hprep HOK) as HOK1.
  unfold SendRequest, SendMessage.
  destruct (messageSenderForPeer prep ctx0 p w) as [[[ms|] [e|]] w1];
    simpl in *; try (split; exact HOK1).
  pose proof (Hreq ms (host (client w1)) (protocols (client w1)) w1) as Hs1.
  pose proof (Hmsg ms (host (client w1)) (protocols (client w1)) w1) as Hs2.
  destruct (sendReq ms ctx0 msg decodeRsp (host (client w1))
              (protocols (client w1)) w1) as [r1 v1].
  destruct (sendMsg ms ctx0 msg (host (client w1))
              (protocols (client w1)) w1) as [r2 v2].
  simpl in *. split.
  - exact (senderStep_registryOK _ _ _ Hs1 HOK1).
  - destruct r2; exact (senderStep_registryOK _ _ _ Hs2 HOK1).
Qed.

Lemma sends_keep_registryOK_witness :
  registryOK (SendRequest failingPrep idleSendRequest background "P" [x01]
                acceptAll worldPQ).2 ∧
  registryOK (SendMessage failingPrep idleSendMessage background "P" [x01]
                worldPQ).2.
Proof.
  apply (sends_keep_registryOK failingPrep idleSendRequest idleSendMessage
           background "P" [x01] acceptAll worldPQ).
  - intros m h ps v. apply senderStep_refl.
  - intros m h ps v. apply senderStep_refl.
  - intros m h ps v. apply senderStep_refl.
  - apply (peerSender_registryOK "Q" worldP 1 worldPQ eq_refl).
    apply (peerSender_registryOK "P" exampleWorld 0 worldP eq_refl).
    exact registryOK_exampleWorld.
Defined.

(** X6: when [prepOrInvalidate] runs without interference and a resolution
    ends with an error, the next [peerSender] for the peer does not return
    the sender that failed: it allocates a new one, without a stream
    handle. *)
Theorem retry_gets_new_sender
    (prep : ptr -> Context -> Host -> list ProtocolID -> World -> option error * World)
    (ctx0 : Context) (p : PeerID) (w : World) (e : error) (w' : World) :
  (∀ (m : ptr) (h : Host) (ps : list ProtocolID),
     touchesOnly m (prep m ctx0 h ps)) ->
  registryOK w ->
  messageSenderForPeer prep ctx0 p w = ((None, Some e), w') ->
  (peerSender p w').1 ≠ (peerSender p w).1 ∧
  heap w' !! (peerSender p w').1 = None ∧
  heap (peerSender p w').2 !! (peerSender p w').1 = Some (unpreparedSender p) ∧
  registry (peerSender p w').2 !! p = Some (peerSender p w').1.
Proof.
  intros Hprep HOK Hres.
  assert (Hnone : registry w' !! p = None).
  { revert Hres. unfold messageSenderForPeer.
    destruct (peerSender p w) as [ms w1] eqn:Eps.
    pose proof (peerSender_filed _ _ _ _ Eps) as Hfiled.
    destruct (callPrepOrInvalidate prep ms ctx0 w1) as [r w2] eqn:Eprep.
    destruct (callPrepOrInvalidate_senderStep _ _ _ _ _ _ Hprep Eprep)
      as (Hclient & _).
    assert (Hreg : registry w2 = registry w1)
      by (unfold registry; by rewrite Hclient).
    destruct r as [e0|]; [|discriminate].
    rewrite replaceOrEvict_same by (by rewrite Hreg).
    intros [= _ <-]. rewrite registry_setPeerSenders. apply lookup_delete_eq. }
  assert (Hlt : (peerSender p w).1 < length (heap w')).
  { revert Hres. unfold messageSenderForPeer.
    destruct (peerSender p w) as [ms w1] eqn:Eps.
    destruct (peerSender_entry _ _ _ _ HOK Eps) as (_ & o & Ho & _).
    destruct (callPrepOrInvalidate prep ms ctx0 w1) as [r w2] eqn:Eprep.
    destruct (callPrepOrInvalidate_senderStep _ _ _ _ _ _ Hprep Eprep)
      as (_ & Hlen & _).
    destruct r as [e0|]; [|discriminate].
    destruct (replaceOrEvict_cases p ms e0 w2)
      as [(msCur & _ & _ & ->)|(v & -> & _ & Hheap & _)]; [discriminate|].
    intros [= _ <-]. simpl. rewrite Hheap, Hlen. by eapply lookup_lt_Some. }
  rewrite (peerSender_missing _ _ Hnone). simpl.
  split; [lia|]. split; [apply lookup_ge_None; lia|]. split.
  - rewrite lookup_app_r by lia. by rewrite Nat.sub_diag.
  - rewrite registry_setPeerSenders. apply lookup_insert_eq.
Qed.

Lemma retry_gets_new_sender_witness :
  (peerSender "P" (messageSenderForPeer failingPrep background "P" worldPQ).2).1
    ≠ (peerSender "P" worldPQ).1 ∧
  heap (peerSender "P"
          (messageSenderForPeer failingPrep background "P" worldPQ).2).2
    !! (peerSender "P"
          (messageSenderForPeer failingPrep background "P" worldPQ).2).1 =
    Some (unpreparedSender "P").
Proof.
  destruct (retry_gets_new_sender failingPrep background "P" worldPQ
              (ErrMsg "dial failed")
              (messageSenderForPeer failingPrep background "P" worldPQ).2)
    as (Hne & _ & Hheap & _).
  - intros m h ps v. apply senderStep_refl.
  - apply (peerSender_registryOK "Q" worldP 1 worldPQ eq_refl).
    apply (peerSender_registryOK "P" exampleWorld 0 worldP eq_refl).
    exact registryOK_exampleWorld.
  - vm_compute. reflexivity.
  - split; [exact Hne|exact Hheap].
Defined.

(** X7: two failures on the same sender evict it once: after
    [replaceOrEvict] removed the entry of a failed sender, the same step for
    the same sender returns its error and changes nothing. *)
Theorem second_eviction_changes_nothing
    (p : PeerID) (ms : ptr) (e1 e2 : error) (w : World) :
  registry w !! p = Some ms ->
  replaceOrEvict p ms e2 (replaceOrEvict p ms e1 w).2 =
    ((None, Some e2), (replaceOrEvict p ms e1 w).2).
Proof.
  intros Hp. rewrite (replaceOrEvict_same _ _ e1 _ Hp). simpl.
  apply replaceOrEvict_absent. rewrite registry_setPeerSenders.
  apply lookup_delete_eq.
Qed.

Lemma second_eviction_changes_nothing_witness :
  replaceOrEvict "P" 0 ErrCanceled
    (replaceOrEvict "P" 0 (ErrMsg "dial failed") worldPQ).2 =
  ((None, Some ErrCanceled),
   (replaceOrEvict "P" 0 (ErrMsg "dial failed") worldPQ).2).
Proof.
  apply (second_eviction_changes_nothing "P" 0 (ErrMsg "dial failed")
           ErrCanceled worldPQ).
  vm_compute. reflexivity.
Defined.

(** *** Invariants among goroutines *)

Lemma exec_invariant (I : World * list goroutine -> Prop) cf ls cf' :
  (∀ c l c', I c → lstep c l c' → I c') ->
  exec cf ls cf' -> I cf -> I cf'.
Proof.
  intros Hstep. induction 1 as [|c l c' ls0 c'' Hl _ IH]; [done|].
  intros Hc. apply IH. by eapply Hstep.
Qed.

(** X8: in every reachable configuration no sender is filed under two peer
    identities. *)
Theorem registry_injective
    (w : World) (gs : list goroutine) (p q : PeerID) (ms : ptr) :
  reachable (w, gs) ->
  registry w !! p = Some ms ->
  registry w !! q = Some ms ->
  p = q.
Proof.
  intros Hreach Hp Hq.
  pose proof (reachable_registryOK _ _ Hreach) as HOK.
  destruct (HOK p ms Hp) as (o1 & Ho1 & H1).
  destruct (HOK q ms Hq) as (o2 & Ho2 & H2).
  congruence.
Qed.

Lemma registry_injective_witness :
  registry cfFresh.1 !! "P"%string = Some 1 ∧
  (∀ q : PeerID, registry cfFresh.1 !! q = Some 1 → q = "P"%string).
Proof.
  split; [vm_compute; reflexivity|].
  intros q Hq. symmetry.
  apply (registry_injective cfFresh.1 cfFresh.2 "P" q 1).
  - eapply reachable_step; [|exact lstep_cfRetry_cfFresh].
    eapply reachable_step; [|exact lstep_cfEvicted_cfRetry].
    eapply reachable_step; [|exact lstep_cfFailed_cfEvicted].
    eapply reachable_step; [|exact lstep_cfShared_cfFailed].
    exact reachable_cfShared.
  - vm_compute. reflexivity.
  - exact Hq.
Defined.

Lemma lstep_heap_stable w gs l w' gs' a o :
  lstep (w, gs) l (w', gs') -> heap w !! a = Some o ->
  ∃ o' : peerMessageSender, heap w' !! a = Some o' ∧ peerID o' = peerID o.
Proof.
  intros Hstep Ha.
  destruct (lstep_registry _ _ _ _ _ Hstep)
    as [(_ & _ & Hheap)|[(g & q & _ & _ & _ & Hheap)|(q & _ & Hheap)]].
  - by apply Hheap.
  - exists o. rewrite Hheap. split; [|done]. by apply lookup_app_l_Some.
  - exists o. by rewrite Hheap.
Qed.

Lemma goroutineOK_stable w gs l w' gs' g :
  lstep (w, gs) l (w', gs') -> goroutineOK w g -> goroutineOK w' g.
Proof.
  intros Hstep. destruct g as [p|p ms|p ms err|p ms|res|]; simpl; try done;
    intros (o & Ho & Hp);
    destruct (lstep_heap_stable _ _ _ _ _ _ _ Hstep Ho) as (o' & Ho' & Hp');
    exists o'; (split; [done|congruence]).
Qed.

Lemma lstep_goroutinesOK w gs l w' gs' :
  lstep (w, gs) l (w', gs') ->
  registryOK w -> Forall (goroutineOK w) gs ->
  Forall (goroutineOK w') gs'.
Proof.
  intros Hstep HOK Hgs.
  assert (Hold : Forall (goroutineOK w') gs).
  { eapply Forall_impl; [exact Hgs|]. intros g. by eapply goroutineOK_stable. }
  inversion Hstep; subst.
  - apply Forall_app. split; [done|]. by apply Forall_cons.
  - apply Forall_insert; [done|]. simpl.
    match goal with H : peerSender _ _ = _ |- _ =>
      destruct (peerSender_entry _ _ _ _ HOK H) as (_ & o & Ho & Hp) end.
    eauto.
  - apply Forall_insert; [done|].
    match goal with H : gs !! _ = Some _ |- _ =>
      exact (Forall_lookup_1 _ _ _ _ Hold H) end.
  - apply Forall_insert; [done|].
    match goal with H : gs !! _ = Some _ |- _ =>
      exact (Forall_lookup_1 _ _ _ _ Hold H) end.
  - apply Forall_insert; [done|].
    match goal with H : replaceOrEvict _ _ _ _ = _ |- _ => rename H into Hre end.
    destruct (replaceOrEvict_cases p ms err w)
      as [(msCur & Hcur & _ & Heq)|(v & Heq & _)];
      rewrite Heq in Hre; injection Hre as <- <-; simpl; [|done].
    by apply HOK.
  - apply Forall_insert; [done|]. done.
  - done.
Qed.

Lemma reachable_goroutinesOK w gs :
  reachable (w, gs) -> registryOK w ∧ Forall (goroutineOK w) gs.
Proof.
  intros (ctx0 & h & protoID & options & c & ls & Hnew & Hexec).
  apply (exec_invariant
           (fun cf => registryOK cf.1 ∧ Forall (goroutineOK cf.1) cf.2)
           _ _ _) in Hexec; [done| |].
  - intros [v hs] l [v' hs'] [H1 H2] Hstep. simpl in *. split.
    + by eapply lstep_registryOK.
    + by eapply lstep_goroutinesOK.
  - simpl. split; [|by apply Forall_nil].
    apply NewClient_inr in Hnew. subst c.
    intros p ms Hp. unfold registry in Hp. simpl in Hp.
    by rewrite lookup_empty in Hp.
Qed.

(** X9: in every reachable configuration, the sender that a goroutine
    prepares, failed to prepare or sends on is allocated and holds the peer
    identity that the call of the goroutine was made for, also when it
    got that sender on the changed-entry path; and no goroutine has called
    a method on a nil sender. *)
Theorem goroutines_hold_senders_of_their_peer
    (w : World) (gs : list goroutine) (g : nat) (gr : goroutine) :
  reachable (w, gs) ->
  gs !! g = Some gr ->
  gr ≠ Crashed ∧
  (∀ (p : PeerID) (ms : ptr),
     (gr = Preparing p ms ∨ (∃ err : error, gr = Failed p ms err) ∨
      gr = Sending p ms) →
     ∃ o : peerMessageSender, heap w !! ms = Some o ∧ peerID o = p).
Proof.
  intros Hreach Hg.
  destruct (reachable_goroutinesOK _ _ Hreach) as [_ Hgs].
  pose proof (Forall_lookup_1 _ _ _ _ Hgs Hg) as HOK.
  split.
  - intros ->. exact HOK.
  - intros p ms [->|[[err ->]| ->]]; exact HOK.
Qed.

Lemma goroutines_hold_senders_of_their_peer_witness :
  ∃ o : peerMessageSender,
    heap cfOvertaken.1 !! 1 = Some o ∧ peerID o = "P"%string.
Proof.
  destruct (goroutines_hold_senders_of_their_peer cfOvertaken.1 cfOvertaken.2
              1 (Sending "P" 1)) as [_ Hheld].
  - eapply reachable_step; [|exact lstep_cfLate_cfOvertaken].
    eapply reachable_step; [|exact lstep_cfFresh_cfLate].
    eapply reachable_step; [|exact lstep_cfRetry_cfFresh].
    eapply reachable_step; [|exact lstep_cfEvicted_cfRetry].
    eapply reachable_step; [|exact lstep_cfFailed_cfEvicted].
    eapply reachable_step; [|exact lstep_cfShared_cfFailed].
    exact reachable_cfShared.
  - reflexivity.
  - apply (Hheld "P"%string 1). right; right. reflexivity.
Defined.

(** X10: an entry appears in the registry only through [peerSender] for
    that peer, and the sender that is filed is one allocated in that very
    transition, without a stream handle. *)
Theorem entries_come_from_peerSender
    (w : World) (gs : list goroutine) (l : label)
    (w' : World) (gs' : list goroutine) (p : PeerID) (ms : ptr) :
  lstep (w, gs) l (w', gs') ->
  registry w !! p = None ->
  registry w' !! p = Some ms ->
  (∃ g : nat, l = LPeerSender g p ms ∧ gs !! g = Some (Resolving p)) ∧
  heap w !! ms = None ∧
  heap w' !! ms = Some (unpreparedSender p).
Proof.
  intros Hstep Hnone Hsome.
  inversion Hstep; subst;
    try (match goal with H : senderStep _ _ _ |- _ =>
           destruct H as (Hc & _); unfold registry in Hsome, Hnone;
           rewrite Hc in Hsome; congruence end).
  - congruence.
  - match goal with H : peerSender _ _ = _ |- _ => rename H into Hps end.
    destruct (decide (p0 = p)) as [->|Hne].
    + rewrite (peerSender_missing _ _ Hnone) in Hps. injection Hps as <- <-.
      rewrite registry_setPeerSenders, lookup_insert_eq in Hsome.
      injection Hsome as <-. split; [eauto|].
      split; [apply lookup_ge_None; lia|].
      simpl. rewrite lookup_app_r by lia. by rewrite Nat.sub_diag.
    + rewrite (peerSender_others _ _ _ _ p Hps) in Hsome by done. congruence.
  - match goal with H : replaceOrEvict _ _ _ _ = _ |- _ => rename H into Hre end.
    destruct (replaceOrEvict_cases p0 ms0 err w)
      as [(msCur & _ & _ & Heq)|(v & Heq & _ & _ & [[_ Hreg]|[_ ->]])];
      rewrite Heq in Hre; injection Hre as <- <-; try congruence.
    rewrite Hreg in Hsome. apply lookup_delete_Some in Hsome as [_ Hsome].
    congruence.
  - rewrite registry_setPeerSenders in Hsome.
    apply lookup_delete_Some in Hsome as [_ Hsome]. congruence.
Qed.

Lemma entries_come_from_peerSender_witness :
  heap cfRetry.1 !! 1 = None ∧
  heap cfFresh.1 !! 1 = Some (unpreparedSender "P").
Proof.
  destruct (entries_come_from_peerSender cfRetry.1 cfRetry.2
              (LPeerSender 2 "P" 1) cfFresh.1 cfFresh.2 "P" 1)
    as (_ & Hbefore & Hafter).
  - exact lstep_cfRetry_cfFresh.
  - vm_compute. reflexivity.
  - vm_compute. reflexivity.
  - split; [exact Hbefore|exact Hafter].
Defined.

(** X11: an entry leaves the registry only through a disconnect of its peer
    or through the [replaceOrEvict] of a goroutine whose preparation of that
    very sender failed; a goroutine that failed on another sender never
    removes it. *)
Theorem entries_leave_by_owner_or_disconnect
    (w : World) (gs : list goroutine) (l : label)
    (w' : World) (gs' : list goroutine) (p : PeerID) (ms : ptr) :
  lstep (w, gs) l (w', gs') ->
  registry w !! p = Some ms ->
  registry w' !! p ≠ Some ms ->
  l = LDisconnect p ∨
  (∃ (g : nat) (err : error),
     l = LReplaceOrEvict g p ms ∧ gs !! g = Some (Failed p ms err)).
Proof.
  intros Hstep Hsome Hgone.
  inversion Hstep; subst;
    try (match goal with H : senderStep _ _ _ |- _ =>
           destruct H as (Hc & _); unfold registry in Hsome, Hgone;
           rewrite Hc in Hgone; congruence end).
  - congruence.
  - match goal with H : peerSender _ _ = _ |- _ => rename H into Hps end.
    destruct (decide (p0 = p)) as [->|Hne].
    + rewrite (peerSender_found _ _ _ Hsome) in Hps. injection Hps as <- <-.
      congruence.
    + rewrite (peerSender_others _ _ _ _ p Hps) in Hgone by done. congruence.
  - match goal with H : replaceOrEvict _ _ _ _ = _ |- _ => rename H into Hre end.
    destruct (replaceOrEvict_cases p0 ms0 err w)
      as [(msCur & _ & _ & Heq)|(v & Heq & _ & _ & [[Hown Hreg]|[_ ->]])];
      rewrite Heq in Hre; injection Hre as <- <-; try congruence.
    destruct (decide (p0 = p)) as [->|Hne].
    + right. exists g, err. split; [|congruence]. congruence.
    + rewrite Hreg, lookup_delete_ne in Hgone by done. congruence.
  - destruct (decide (p0 = p)) as [->|Hne]; [by left|].
    rewrite registry_setPeerSenders, lookup_delete_ne in Hgone by done.
    congruence.
Qed.

Lemma entries_leave_by_owner_or_disconnect_witness :
  LReplaceOrEvict 0 "P" 0 = LDisconnect "P" ∨
  (∃ (g : nat) (err : error),
     LReplaceOrEvict 0 "P" 0 = LReplaceOrEvict g "P" 0 ∧
     cfFailed.2 !! g = Some (Failed "P" 0 err)).
Proof.
  apply (entries_leave_by_owner_or_disconnect cfFailed.1 cfFailed.2
           (LReplaceOrEvict 0 "P" 0) cfEvicted.1 cfEvicted.2 "P" 0).
  - exact lstep_cfFailed_cfEvicted.
  - vm_compute. reflexivity.
  - rewrite registry_cfEvicted, lookup_empty. discriminate.
Defined.

(** X12: senders are never deallocated, and an execution allocates at most
    one sender for each [peerSender] transition in it. *)
Theorem allocation_bound
    (cf : World * list goroutine) (ls : list label)
    (cf' : World * list goroutine) :
  exec cf ls cf' ->
  length (heap cf.1) ≤ length (heap cf'.1) ∧
  length (heap cf'.1) ≤ length (heap cf.1) + countLookups ls.
Proof.
  induction 1 as [|[w gs] l [w' gs'] ls cf'' Hstep _ IH]; [simpl; lia|].
  cbn [fst] in *.
  assert (Hone : length (heap w) ≤ length (heap w') ∧
                 length (heap w') ≤ length (heap w) + countLookups [l]).
  { destruct (lstep_registry _ _ _ _ _ Hstep)
      as [(_ & Hlen & _)|[(g & q & -> & _ & _ & Hheap)|(q & _ & Hheap)]].
    - lia.
    - rewrite Hheap, length_app. simpl. lia.
    - rewrite Hheap. lia. }
  assert (Hcount : countLookups (l :: ls) = countLookups [l] + countLookups ls)
    by by destruct l.
  rewrite Hcount. lia.
Qed.

Lemma allocation_bound_witness :
  length (heap cfFresh.1) ≤ 0 + 3.
Proof.
  refine (proj2 (allocation_bound (exampleWorld, [])
            [LCall "P"; LCall "P"; LPeerSender 0 "P" 0; LPeerSender 1 "P" 0;
             LPrepared 0 0 (Some (ErrMsg "dial failed"));
             LReplaceOrEvict 0 "P" 0; LCall "P"; LPeerSender 2 "P" 1]
            cfFresh _)).
  eapply exec_cons; [apply go_call|].
  eapply exec_cons; [apply go_call|].
  eapply exec_cons; [eapply (go_peerSender _ _ 0 "P"); reflexivity|].
  eapply exec_cons; [eapply (go_peerSender _ _ 1 "P"); reflexivity|].
  eapply exec_cons; [exact lstep_cfShared_cfFailed|].
  eapply exec_cons; [exact lstep_cfFailed_cfEvicted|].
  eapply exec_cons; [exact lstep_cfEvicted_cfRetry|].
  eapply exec_cons; [exact lstep_cfRetry_cfFresh|].
  apply exec_nil.
Defined.

(** *** The modelled sender methods run as sender steps *)



(** ** Serialization by the locks of the senders *)

(** The two halves make up [Sender.sendRequest]. *)
Lemma sendRequest_split ms ctx0 msg decodeRsp h protos w :
  Sender.sendRequest ms ctx0 msg decodeRsp h protos w =
    match writeRequest ms msg h w with
    | inl (err, w') => (Some err, w')
    | inr (st, w') => readResponse ms st decodeRsp h w'
    end.
Proof.
  unfold Sender.sendRequest, writeRequest, readResponse.
  destruct (heap w !! ms) as [o|] eqn:Hms; [|reflexivity].
  destruct (stream o) as [st|]; [|reflexivity].
  destruct (streamWrite h st msg (clock w)) as [err|]; [reflexivity|].
  simpl. rewrite Hms. reflexivity.
Qed.






Lemma lockBit_setSender ms o o' w :
  heap w !! ms = Some o ->
  lockBit (Sender.setSender ms o' w) ms = held (ctxLock o').
Proof.
  intros Hms. unfold lockBit. simpl.
  rewrite list_lookup_insert_eq; [done|]. by eapply lookup_lt_Some.
Qed.

















(** *** Invariants of the configurations *)













(** *** Two executions *)





